(** * EVA: constant values, semantic term model and common-subexpression
      elimination

    A shallow embedding of
      - [eva/util/hash_combine.h],
      - [eva/ir/constant_value.h] and [eva/ir/constant_value.cpp],
      - [eva/common/common_subexpression_elimination.h],
    followed by the properties of the specification that concern them.

    Conventions.  [std::size_t] is a 64-bit unsigned integer, [std::uint32_t]
    a 32-bit unsigned integer and [int] a 32-bit two's-complement integer; all
    three are carried by [Z] with the wrap-around written where the C++
    arithmetic wraps.  [double] is the kernel's binary64 float, compared with
    the IEEE comparison ([PrimFloat.eqb]), which is what [==] and [!=] on
    [double] are.  A [std::vector] is a [list]; memory is not bounded, so a
    vector grows as far as the code asks, but [reserve] checks its argument
    against [max_size()] as the library does.  A call that can throw or whose
    behaviour is undefined returns an [outcome]. *)

From Stdlib Require Import ZArith List Lia Bool Permutation Sorted.
From Stdlib Require Strings.String.
Import String.StringSyntax.
From Stdlib Require Import Floats.PrimFloat Floats.SpecFloat Floats.FloatOps.
From Stdlib Require Import Floats.FloatAxioms.
Import ListNotations.
Open Scope string_scope.
Open Scope list_scope.
Open Scope Z_scope.

(** ** Machine integers *)

Definition size_t_modulus : Z := 2 ^ 64.
Definition uint32_modulus : Z := 2 ^ 32.

(** Reduction to [std::size_t]. *)
Definition to_size_t (z : Z) : Z := z mod size_t_modulus.

(** Reduction to [std::uint32_t]. *)
Definition to_uint32 (z : Z) : Z := z mod uint32_modulus.

(** Conversion to [int] (two's complement, 32 bits). *)
Definition to_int (z : Z) : Z := (z + 2 ^ 31) mod uint32_modulus - 2 ^ 31.

(** ** Outcomes of a call *)

Inductive failure : Type :=
| RuntimeError (what : String.string)   (* throw std::runtime_error(what) *)
| OutOfRange                     (* std::out_of_range, thrown by vector::at *)
| LengthError                    (* std::length_error, thrown by
                                    vector::reserve *)
| Undefined                      (* undefined behaviour: division by zero,
                                    read past the end of a vector *)
| Unbounded.                     (* a loop that made no progress within its
                                    iteration budget *)

Inductive outcome (A : Type) : Type :=
| Ok (a : A)
| Fail (e : failure).

Arguments Ok {A} a.
Arguments Fail {A} e.

Definition bind {A B : Type} (m : outcome A) (k : A -> outcome B) : outcome B :=
  match m with
  | Ok a => k a
  | Fail e => Fail e
  end.

Notation "x <- m ;; k" := (bind m (fun x => k))
  (at level 61, m at next level, right associativity).
Notation "m ;;; k" := (bind m (fun _ => k))
  (at level 61, right associativity).

(** ** [double] and vectors *)

Definition double : Type := float.

Definition double_eq (x y : double) : bool := PrimFloat.eqb x y.
Definition double_ne (x y : double) : bool := negb (PrimFloat.eqb x y).

Definition vsize {A : Type} (v : list A) : Z := Z.of_nat (length v).

(** [v[i]]: unchecked, undefined when [i] is not below [v.size()]. *)
Definition vector_index {A : Type} (v : list A) (i : Z) : outcome A :=
  if (0 <=? i) && (i <? vsize v) then
    match nth_error v (Z.to_nat i) with
    | Some x => Ok x
    | None => Fail Undefined
    end
  else Fail Undefined.

Fixpoint list_put {A : Type} (v : list A) (n : nat) (x : A) : list A :=
  match v, n with
  | [], _ => []
  | _ :: v', O => x :: v'
  | y :: v', S n' => y :: list_put v' n' x
  end.

(** [v.at(i) = x]: checked, throws [std::out_of_range]. *)
Definition vector_at_put {A : Type} (v : list A) (i : Z) (x : A)
  : outcome (list A) :=
  if (0 <=? i) && (i <? vsize v) then Ok (list_put v (Z.to_nat i) x)
  else Fail OutOfRange.

(** [std::vector<double>::max_size()]: [PTRDIFF_MAX / sizeof(double)], the
    value of libstdc++ on a 64-bit target. *)
Definition vector_max_size : Z := 2 ^ 60 - 1.

(** [v.reserve(n)]: throws [std::length_error] when [n] exceeds
    [max_size()]; the contents of [v] are not changed.  A request within
    [max_size()] is taken to succeed: [std::bad_alloc], which depends on
    the memory of the machine, is not modelled. *)
Definition vector_reserve (n : Z) : outcome unit :=
  if vector_max_size <? n then Fail LengthError else Ok tt.

(** [v.clear(); v.resize(n)] on a [std::vector<double>]: [n]
    value-initialised entries, [std::length_error] when [n] exceeds
    [max_size()]. *)
Definition vector_resize (n : Z) : outcome (list double) :=
  if vector_max_size <? n then Fail LengthError
  else Ok (repeat 0%float (Z.to_nat n)).

(** [std::vector<double>::operator==]: same length, elementwise [==]. *)
Fixpoint vector_eq (a b : list double) : bool :=
  match a, b with
  | [], [] => true
  | x :: a', y :: b' => double_eq x y && vector_eq a' b'
  | _, _ => false
  end.

(** [a / b] and [a % b] on [std::size_t]; undefined for [b == 0]. *)
Definition size_t_div (a b : Z) : outcome Z :=
  if b =? 0 then Fail Undefined else Ok (a / b).

Definition size_t_rem (a b : Z) : outcome Z :=
  if b =? 0 then Fail Undefined else Ok (a mod b).

(** ** Operation kinds and term references

    Modelled from the spec: the operation set and the term references are
    declared in eva/ir/ops.h and eva/ir/term.h, which are not part of the
    sources at hand.  The kinds are those the two [switch] statements of
    common_subexpression_elimination.h enumerate. *)

Inductive Op : Type :=
| Undef | Input | Output | Constant
| Negate | Add | Sub | Mul
| RotateLeftConst | RotateRightConst
| Relinearize | ModSwitch | Rescale | Encode.

Definition Op_eqb (a b : Op) : bool :=
  match a, b with
  | Undef, Undef | Input, Input | Output, Output | Constant, Constant
  | Negate, Negate | Add, Add | Sub, Sub | Mul, Mul
  | RotateLeftConst, RotateLeftConst | RotateRightConst, RotateRightConst
  | Relinearize, Relinearize | ModSwitch, ModSwitch
  | Rescale, Rescale | Encode, Encode => true
  | _, _ => false
  end.

(** A [Term::Ptr] is the address of the term it shares. *)
Definition TermPtr : Type := Z.

(** ** [hash_combine] (eva/util/hash_combine.h)

    [std::hash<T>] belongs to the C++ standard library; the hashers the code
    instantiates are parameters of the model. *)

Record StdHash : Type := {
  hash_size_t : Z -> Z;        (* std::hash<std::size_t>, also std::uint64_t *)
  hash_uint32 : Z -> Z;        (* std::hash<std::uint32_t> *)
  hash_int32 : Z -> Z;         (* std::hash<std::int32_t> *)
  hash_double : double -> Z;   (* std::hash<double> *)
  hash_Op : Op -> Z;           (* std::hash<Op> *)
  hash_TermPtr : TermPtr -> Z  (* std::hash<std::shared_ptr<Term>> *)
}.

(** [hash ^= hasher(value) + 0x9e3779b9 + (hash << 6) + (hash >> 2)], where
    [hv] is [hasher(value)]. *)
Definition hash_combine (hash hv : Z) : Z :=
  Z.lxor hash
    (to_size_t (hv + 0x9e3779b9 + to_size_t (Z.shiftl hash 6) + Z.shiftr hash 2)).

(** The hashers of libstdc++ and libc++ on unsigned integers return the value
    itself.  The other hashers stay parameters. *)
Definition identity_hash (hi : Z -> Z) (hd : double -> Z) (ho : Op -> Z)
  (hp : TermPtr -> Z) : StdHash :=
  {| hash_size_t := fun z => z;
     hash_uint32 := fun z => z;
     hash_int32 := hi;
     hash_double := hd;
     hash_Op := ho;
     hash_TermPtr := hp |}.

(** ** Constant values (eva/ir/constant_value.{h,cpp}) *)

Record DenseConstantValue : Type := mkDense {
  dense_size : Z;                   (* ConstantValue::size *)
  dense_values : list double        (* std::vector<double> values *)
}.

Record SparseConstantValue : Type := mkSparse {
  sparse_size : Z;                  (* ConstantValue::size *)
  sparse_values : list (Z * double) (* vector<pair<uint32_t, double>> values *)
}.

Inductive ConstantValue : Type :=
| Dense (d : DenseConstantValue)
| Sparse (s : SparseConstantValue).

Definition size_of (c : ConstantValue) : Z :=
  match c with
  | Dense d => dense_size d
  | Sparse s => sparse_size s
  end.

(** [ConstantValue::validateSlots]. *)
Definition validateSlots (size slots : Z) : outcome unit :=
  if slots <? size then
    Fail (RuntimeError "Slots must be at least size of constant")
  else
    r <- size_t_rem slots size ;;
    if negb (r =? 0) then Fail (RuntimeError "Size must exactly divide slots")
    else Ok tt.

(** The loop [for (int r = n; r > 0; --r) out.insert(out.end(), values)]. *)
Fixpoint insert_times (r : nat) (values out : list double) : list double :=
  match r with
  | O => out
  | S r' => insert_times r' values (out ++ values)
  end.

Module DenseCV.

(** [DenseConstantValue::DenseConstantValue(size, values)]. *)
Definition make (size : Z) (values : list double)
  : outcome DenseConstantValue :=
  r <- size_t_rem size (vsize values) ;;
  if negb (r =? 0) then
    Fail (RuntimeError "DenseConstantValue size must exactly divide size")
  else Ok (mkDense size values).

(** [expand(scratch, slots)]: the vector the returned reference denotes. *)
Definition expand (this : DenseConstantValue) (slots : Z)
  : outcome (list double) :=
  validateSlots (dense_size this) slots ;;;
  if vsize (dense_values this) =? slots then Ok (dense_values this)
  else
    q <- size_t_div slots (vsize (dense_values this)) ;;
    Ok (insert_times (Z.to_nat (to_int q)) (dense_values this) []).

(** [expandTo(result, slots)]: the contents of [result] on return. *)
Definition expandTo (this : DenseConstantValue) (slots : Z)
  : outcome (list double) :=
  validateSlots (dense_size this) slots ;;;
  vector_reserve slots ;;;
  q <- size_t_div slots (vsize (dense_values this)) ;;
  Ok (insert_times (Z.to_nat (to_int q)) (dense_values this) []).

(** [isZero()]. *)
Fixpoint all_zero (values : list double) : bool :=
  match values with
  | [] => true
  | value :: rest => if double_ne value 0%float then false else all_zero rest
  end.

Definition isZero (this : DenseConstantValue) : bool :=
  all_zero (dense_values this).

(** [operator==(const DenseConstantValue&)]. *)
Definition eq_dense (this other : DenseConstantValue) : bool :=
  (dense_size this =? dense_size other)
  && vector_eq (dense_values this) (dense_values other).

(** The loop of [operator==(const SparseConstantValue&)]. *)
Fixpoint entries_match (values : list double) (entries : list (Z * double))
  : outcome bool :=
  match entries with
  | [] => Ok true
  | entry :: rest =>
      i <- size_t_rem (fst entry) (vsize values) ;;
      v <- vector_index values i ;;
      if double_ne v (snd entry) then Ok false
      else entries_match values rest
  end.

(** [operator==(const SparseConstantValue&)]. *)
Definition eq_sparse (this : DenseConstantValue) (other : SparseConstantValue)
  : outcome bool :=
  if negb (dense_size this =? sparse_size other) then Ok false
  else entries_match (dense_values this) (sparse_values other).

(** The loop of [hash()]: [n] iterations remain, [i] is the loop index. *)
Fixpoint hash_loop (H : StdHash) (values : list double) (n : nat)
  (i hash zero_count : Z) : outcome (Z * Z) :=
  match n with
  | O => Ok (hash, zero_count)
  | S n' =>
      v <- vector_index values i ;;
      if double_eq v 0%float then
        hash_loop H values n' (i + 1) hash (to_size_t (zero_count + 1))
      else
        let hash1 :=
          if 0 <? zero_count
          then hash_combine hash (hash_size_t H zero_count) else hash in
        let zero_count1 := if 0 <? zero_count then 0 else zero_count in
        hash_loop H values n' (i + 1)
          (hash_combine hash1 (hash_double H v)) zero_count1
  end.

(** [hash()]. *)
Definition hash (H : StdHash) (this : DenseConstantValue) : outcome Z :=
  r <- hash_loop H (dense_values this) (Z.to_nat (dense_size this)) 0 0 0 ;;
  let '(hash, zero_count) := r in
  if 0 <? zero_count then Ok (hash_combine hash (hash_size_t H zero_count))
  else Ok hash.

End DenseCV.

(** [std::sort] is called with the comparator
    [[](const std::pair<int, int>& p1, const std::pair<int, int>& p2)
       { return p1.first < p2.first; }]:
    at each call the two entries, of type [std::pair<std::uint32_t, double>],
    are converted to pairs of [int]s and the first components are compared as
    [int]s. *)

(** The conversion of a [double] to [int] truncates; it is undefined when the
    truncated value is not an [int], that is unless
    [-2^31 - 1 < value < 2^31] (so also for NaN and the infinities). *)
Definition fits_int (value : double) : bool :=
  PrimFloat.ltb (-2147483649)%float value
  && PrimFloat.ltb value 2147483648%float.

(** The conversion of an entry to [std::pair<int, int>]: the first component
    of the result, the only one the comparator reads. *)
Definition to_int_pair_first (p : Z * double) : outcome Z :=
  if fits_int (snd p) then Ok (to_int (fst p)) else Fail Undefined.

(** The comparator. *)
Definition index_less (p1 p2 : Z * double) : outcome bool :=
  first1 <- to_int_pair_first p1 ;;
  first2 <- to_int_pair_first p2 ;;
  Ok (first1 <? first2).

(** [std::sort] is modelled by insertion sort with the comparator above.  A
    range of one entry is sorted without a call of the comparator; in a range
    of two or more entries every entry is compared at least once, by this and
    by any other algorithm. *)
Fixpoint sort_insert (x : Z * double) (l : list (Z * double))
  : outcome (list (Z * double)) :=
  match l with
  | [] => Ok [x]
  | y :: l' =>
      less <- index_less y x ;;
      if less then (r <- sort_insert x l' ;; Ok (y :: r))
      else Ok (x :: y :: l')
  end.

Fixpoint std_sort (l : list (Z * double)) : outcome (list (Z * double)) :=
  match l with
  | [] => Ok []
  | x :: l' => sorted <- std_sort l' ;; sort_insert x sorted
  end.

(** The order the comparator decides when the conversions are defined, and
    the arrangement it leads to.  These two functions serve to state what
    [std_sort] returns; the C++ standard leaves the relative order of entries
    that the comparator does not separate unspecified, and the constructor
    below does not depend on it, nor on the algorithm (see
    [make_independent_of_sort]). *)
Definition int_index_ltb (p1 p2 : Z * double) : bool :=
  to_int (fst p1) <? to_int (fst p2).

Fixpoint ordered_insert (x : Z * double) (l : list (Z * double))
  : list (Z * double) :=
  match l with
  | [] => [x]
  | y :: l' =>
      if int_index_ltb y x then y :: ordered_insert x l' else x :: y :: l'
  end.

Fixpoint ordered_sort (l : list (Z * double)) : list (Z * double) :=
  match l with
  | [] => []
  | x :: l' => ordered_insert x (ordered_sort l')
  end.

(** [std::sort] calls the comparator on a range of two or more entries only;
    the calls are defined when every value converts to [int]. *)
Definition conversions_defined (l : list (Z * double)) : bool :=
  (length l <=? 1)%nat || forallb (fun entry => fits_int (snd entry)) l.

Module SparseCV.

(** The predicate of [std::copy_if]: [entry.second != 0]. *)
Definition nonzero (entry : Z * double) : bool :=
  double_ne (snd entry) 0%float.

(** The loop that looks for two equal neighbouring indices. *)
Fixpoint check_duplicates (prev : Z) (rest : list (Z * double))
  : outcome unit :=
  match rest with
  | [] => Ok tt
  | entry :: rest' =>
      let next := fst entry in
      if next =? prev then
        Fail (RuntimeError "SparseConstantValue must not have duplicate indices")
      else check_duplicates next rest'
  end.

(** [SparseConstantValue::SparseConstantValue(size, values)], for a given
    implementation [sort] of [std::sort] with the comparator above. *)
Definition make_with (sort : list (Z * double) -> outcome (list (Z * double)))
  (size : Z) (values : list (Z * double)) : outcome SparseConstantValue :=
  let kept := filter nonzero values in
  if 0 <? vsize kept then
    sorted <- sort kept ;;
    match sorted with
    | [] => Fail Undefined                       (* this->values[0] *)
    | first :: rest =>
        check_duplicates (fst first) rest ;;;
        Ok (mkSparse size sorted)
    end
  else Ok (mkSparse size kept).

Definition make (size : Z) (values : list (Z * double))
  : outcome SparseConstantValue :=
  make_with std_sort size values.

(** The loop [for (int i = 0; i < slots; i += values.size())
                scratch.at(entry.first + i) = entry.second;]
    for one entry.  [i < slots] compares after converting [i] to
    [std::size_t]; [entry.first + i] is computed on 32-bit unsigned
    integers.  [n] bounds the number of iterations. *)
Fixpoint fill_entry (n : nat) (slots stride : Z) (entry : Z * double)
  (i : Z) (scratch : list double) : outcome (list double) :=
  if to_size_t i <? slots then
    match n with
    | O => Fail Unbounded
    | S n' =>
        scratch' <- vector_at_put scratch (to_uint32 (fst entry + i))
                      (snd entry) ;;
        fill_entry n' slots stride entry (to_int (i + stride)) scratch'
    end
  else Ok scratch.

(** The loop over the entries. *)
Fixpoint fill (slots stride : Z) (entries : list (Z * double))
  (scratch : list double) : outcome (list double) :=
  match entries with
  | [] => Ok scratch
  | entry :: rest =>
      scratch' <- fill_entry (S (Z.to_nat slots)) slots stride entry 0
                    scratch ;;
      fill slots stride rest scratch'
  end.

(** [expand(scratch, slots)]: [scratch.resize(slots)] value-initialises, the
    stride of the inner loop is [values.size()]. *)
Definition expand (this : SparseConstantValue) (slots : Z)
  : outcome (list double) :=
  validateSlots (sparse_size this) slots ;;;
  scratch <- vector_resize slots ;;
  fill slots (vsize (sparse_values this)) (sparse_values this) scratch.

(** [expandTo(result, slots)]: the same statements on [result]. *)
Definition expandTo (this : SparseConstantValue) (slots : Z)
  : outcome (list double) :=
  validateSlots (sparse_size this) slots ;;;
  result <- vector_resize slots ;;
  fill slots (vsize (sparse_values this)) (sparse_values this) result.

(** [isZero()]. *)
Definition isZero (this : SparseConstantValue) : bool :=
  vsize (sparse_values this) =? 0.

(** [!=] on [std::pair<std::uint32_t, double>]. *)
Definition pair_ne (a b : Z * double) : bool :=
  negb ((fst a =? fst b) && double_eq (snd a) (snd b)).

(** The loop of [operator==(const SparseConstantValue&)]; it runs over
    [values] and reads [other.values] at the same position, the two having
    the same length. *)
Fixpoint entries_eq (values other : list (Z * double)) : bool :=
  match values, other with
  | [], _ => true
  | x :: values', y :: other' =>
      if pair_ne x y then false else entries_eq values' other'
  | _ :: _, [] => false
  end.

(** [operator==(const SparseConstantValue&)]. *)
Definition eq_sparse (this other : SparseConstantValue) : bool :=
  if negb (sparse_size this =? sparse_size other)
     || negb (vsize (sparse_values this) =? vsize (sparse_values other))
  then false
  else entries_eq (sparse_values this) (sparse_values other).

(** [operator==(const DenseConstantValue&)]: [other == *this]. *)
Definition eq_dense (this : SparseConstantValue) (other : DenseConstantValue)
  : outcome bool :=
  DenseCV.eq_sparse other this.

(** The loop of [hash()]; [pair.first - prev] is a 32-bit unsigned
    difference. *)
Fixpoint hash_loop (H : StdHash) (entries : list (Z * double))
  (hash prev : Z) : Z * Z :=
  match entries with
  | [] => (hash, prev)
  | entry :: rest =>
      let gap := to_uint32 (fst entry - prev) in
      let hash1 :=
        if 0 <? gap then hash_combine hash (hash_uint32 H gap) else hash in
      hash_loop H rest (hash_combine hash1 (hash_double H (snd entry)))
        (fst entry)
  end.

(** [hash()]; [size - prev] is a [std::size_t] difference. *)
Definition hash (H : StdHash) (this : SparseConstantValue) : Z :=
  let '(hash, prev) := hash_loop H (sparse_values this) 0 0 in
  let tail := to_size_t (sparse_size this - prev) in
  if 0 <? tail then hash_combine hash (hash_size_t H tail) else hash.

End SparseCV.

(** The constructor on a range that is sorted without undefined conversion:
    what [SparseCV.make] is wherever [conversions_defined] holds of the
    entries it keeps (see [make_spec]). *)
Definition ordered_make (size : Z) (values : list (Z * double))
  : outcome SparseConstantValue :=
  SparseCV.make_with (fun l => Ok (ordered_sort l)) size values.

(** *** The virtual interface of [ConstantValue] *)

(** [this->operator==(const DenseConstantValue& other)]. *)
Definition eq_with_dense (this : ConstantValue) (other : DenseConstantValue)
  : outcome bool :=
  match this with
  | Dense d => Ok (DenseCV.eq_dense d other)
  | Sparse s => SparseCV.eq_dense s other
  end.

(** [this->operator==(const SparseConstantValue& other)]. *)
Definition eq_with_sparse (this : ConstantValue) (other : SparseConstantValue)
  : outcome bool :=
  match this with
  | Dense d => DenseCV.eq_sparse d other
  | Sparse s => Ok (SparseCV.eq_sparse s other)
  end.

(** [this->operator==(const ConstantValue& other)]: both variants return
    [other == *this], which selects the overload for the static type
    of [*this]. *)
Definition ConstantValue_eq (this other : ConstantValue) : outcome bool :=
  match this with
  | Dense d => eq_with_dense other d
  | Sparse s => eq_with_sparse other s
  end.

(** [std::hash<eva::ConstantValue>]: [x.hash()]. *)
Definition ConstantValue_hash (H : StdHash) (x : ConstantValue) : outcome Z :=
  match x with
  | Dense d => DenseCV.hash H d
  | Sparse s => Ok (SparseCV.hash H s)
  end.

Definition ConstantValue_expand (x : ConstantValue) (slots : Z)
  : outcome (list double) :=
  match x with
  | Dense d => DenseCV.expand d slots
  | Sparse s => SparseCV.expand s slots
  end.

Definition ConstantValue_expandTo (x : ConstantValue) (slots : Z)
  : outcome (list double) :=
  match x with
  | Dense d => DenseCV.expandTo d slots
  | Sparse s => SparseCV.expandTo s slots
  end.

Definition ConstantValue_isZero (x : ConstantValue) : bool :=
  match x with
  | Dense d => DenseCV.isZero d
  | Sparse s => SparseCV.isZero s
  end.

(** ** Terms

    Modelled from the spec: [Term] (eva/ir/term.h) and its attributes
    (eva/ir/attributes.h) are not part of the sources at hand.  A term has an
    operation kind, an ordered list of operand references, a numeric index and
    attributes fetched by tag; the record has one field for each tag that
    common_subexpression_elimination.h fetches. *)

Record Term : Type := mkTerm {
  op : Op;
  operands : list TermPtr;             (* getOperands(), operandAt(i) *)
  index : Z;                           (* std::uint64_t index *)
  ConstantValueAttribute : ConstantValue;
  RotationAttribute : Z;
  RescaleDivisorAttribute : Z;
  EncodeAtScaleAttribute : Z;
  EncodeAtLevelAttribute : Z
}.

Definition numOperands (t : Term) : Z := vsize (operands t).

(** ** The semantic term model (common_subexpression_elimination.h) *)

(** The loop [for (i = 0; i < lhs->numOperands(); ++i)
                if (lhs->operandAt(i) != rhs->operandAt(i)) return false;],
    run once the two lists are known to have the same length: [true] when it
    falls through. *)
Fixpoint same_operands (lhs rhs : list TermPtr) : bool :=
  match lhs, rhs with
  | [], _ => true
  | x :: lhs', y :: rhs' =>
      if negb (x =? y) then false else same_operands lhs' rhs'
  | _ :: _, [] => false
  end.

(** [SemanticTermEquality::operator()]. *)
Definition SemanticTermEquality (lhs rhs : Term) : outcome bool :=
  if negb (Op_eqb (op lhs) (op rhs)) then Ok false
  else if negb (numOperands lhs =? numOperands rhs) then Ok false
  else if negb (same_operands (operands lhs) (operands rhs)) then Ok false
  else
    match op lhs with
    | Undef => Ok false
    | Input | Output => Ok (index lhs =? index rhs)
    | Constant =>
        ConstantValue_eq (ConstantValueAttribute lhs)
          (ConstantValueAttribute rhs)
    | Negate | Add | Sub | Mul | Relinearize | ModSwitch => Ok true
    | RotateLeftConst | RotateRightConst =>
        Ok (RotationAttribute lhs =? RotationAttribute rhs)
    | Rescale =>
        Ok (RescaleDivisorAttribute lhs =? RescaleDivisorAttribute rhs)
    | Encode =>
        Ok ((EncodeAtScaleAttribute lhs =? EncodeAtScaleAttribute rhs)
            && (EncodeAtLevelAttribute lhs =? EncodeAtLevelAttribute rhs))
    end.

(** The loop [for (operand : term->getOperands()) hash_combine(hash, operand)]. *)
Fixpoint hash_operands (H : StdHash) (ops : list TermPtr) (hash : Z) : Z :=
  match ops with
  | [] => hash
  | operand :: rest =>
      hash_operands H rest (hash_combine hash (hash_TermPtr H operand))
  end.

(** [SemanticTermHash::operator()]. *)
Definition SemanticTermHash (H : StdHash) (term : Term) : outcome Z :=
  let hash := hash_combine 0 (hash_Op H (op term)) in
  let hash := hash_operands H (operands term) hash in
  match op term with
  | Input | Output => Ok (hash_combine hash (hash_size_t H (index term)))
  | Constant =>
      hv <- ConstantValue_hash H (ConstantValueAttribute term) ;;
      Ok (hash_combine hash hv)
  | Undef | Negate | Add | Sub | Mul | Relinearize | ModSwitch => Ok hash
  | RotateLeftConst | RotateRightConst =>
      Ok (hash_combine hash (hash_int32 H (RotationAttribute term)))
  | Rescale =>
      Ok (hash_combine hash (hash_uint32 H (RescaleDivisorAttribute term)))
  | Encode =>
      let hash :=
        hash_combine hash (hash_uint32 H (EncodeAtScaleAttribute term)) in
      Ok (hash_combine hash (hash_uint32 H (EncodeAtLevelAttribute term)))
  end.

(** ** The CSE pass *)

(** The store of terms: what each [Term::Ptr] points to. *)
Definition Heap : Type := TermPtr -> Term.

(** [std::unordered_set<Term::Ptr, SemanticTermHash, SemanticTermEquality>]:
    the elements in insertion order, each with the hash code computed when it
    was inserted. *)
Definition TermSet : Type := list (Z * TermPtr).

(** The search [insert] makes: the first element with the hash code of the
    key that the equality functor accepts. *)
Fixpoint find_equal (heap : Heap) (code : Z) (term : TermPtr) (s : TermSet)
  : outcome (option TermPtr) :=
  match s with
  | [] => Ok None
  | (code', p) :: rest =>
      if code' =? code then
        b <- SemanticTermEquality (heap term) (heap p) ;;
        if b then Ok (Some p) else find_equal heap code term rest
      else find_equal heap code term rest
  end.

(** [unique_terms.insert(term)]: the set afterwards, the element the returned
    iterator designates, and whether the insertion took place. *)
Definition insert (H : StdHash) (heap : Heap) (s : TermSet) (term : TermPtr)
  : outcome (TermSet * TermPtr * bool) :=
  code <- SemanticTermHash H (heap term) ;;
  found <- find_equal heap code term s ;;
  match found with
  | Some p => Ok (s, p, false)
  | None => Ok (s ++ [(code, term)], term, true)
  end.

Definition redirect (term rep : TermPtr) (t : Term) : Term :=
  mkTerm (op t)
    (map (fun operand => if operand =? term then rep else operand) (operands t))
    (index t) (ConstantValueAttribute t) (RotationAttribute t)
    (RescaleDivisorAttribute t) (EncodeAtScaleAttribute t)
    (EncodeAtLevelAttribute t).

(** Modelled from the spec: [Term::replaceAllUsesWith] is defined in
    eva/ir/term.h, not part of the sources at hand.  Every user of [term] is
    redirected to reference [rep] instead. *)
Definition replaceAllUsesWith (heap : Heap) (term rep : TermPtr) : Heap :=
  fun p => redirect term rep (heap p).

(** The state the pass works on. *)
Record CommonSubexpressionEliminator : Type := mkCSE {
  terms : Heap;
  unique_terms : TermSet
}.

(** [CommonSubexpressionEliminator::operator()(term)]. *)
Definition process (H : StdHash) (st : CommonSubexpressionEliminator)
  (term : TermPtr) : outcome CommonSubexpressionEliminator :=
  r <- insert H (terms st) (unique_terms st) term ;;
  let '(s, first, second) := r in
  if negb second then Ok (mkCSE (replaceAllUsesWith (terms st) term first) s)
  else Ok (mkCSE (terms st) s).

(** ** The logical pattern of a constant value

    These definitions follow the words of the specification, not the code: a
    constant value denotes the [size]-periodic sequence whose entry at
    position [i] is, for a Dense value, the stored buffer read modulo its
    length and, for a Sparse value, the value listed for [i], zero when no
    entry lists [i]. *)

Definition spec_dense_entry (d : DenseConstantValue) (i : Z) : option double :=
  nth_error (dense_values d) (Z.to_nat (i mod vsize (dense_values d))).

Definition spec_sparse_entry (s : SparseConstantValue) (i : Z) : double :=
  match find (fun entry => fst entry =? i) (sparse_values s) with
  | Some entry => snd entry
  | None => 0%float
  end.

Definition spec_entry (c : ConstantValue) (i : Z) : option double :=
  match c with
  | Dense d => spec_dense_entry d i
  | Sparse s => Some (spec_sparse_entry s i)
  end.

(** The positions [0 .. size-1]. *)
Definition positions (size : Z) : list Z :=
  map Z.of_nat (seq 0 (Z.to_nat size)).

(** The logical [size]-length pattern. *)
Definition spec_pattern (c : ConstantValue) : list (option double) :=
  map (spec_entry c) (positions (size_of c)).

(** A pattern concatenated [k] times. *)
Definition spec_tiled {A : Type} (k : nat) (pattern : list A) : list A :=
  concat (repeat pattern k).

(** Two constant values denote the same logical sequence: same [size], and
    entries that compare equal at every position. *)
Definition option_double_eq (a b : option double) : bool :=
  match a, b with
  | Some x, Some y => double_eq x y
  | None, None => true
  | _, _ => false
  end.

Definition spec_same_pattern (a b : ConstantValue) : bool :=
  (size_of a =? size_of b)
  && forallb (fun i => option_double_eq (spec_entry a i) (spec_entry b i))
       (positions (size_of a)).

(** Orders on entries: by index, and by index read as an [int]. *)
Definition index_lt (a b : Z * double) : Prop := fst a < fst b.
Definition int_index_lt (a b : Z * double) : Prop :=
  to_int (fst a) < to_int (fst b).
Definition int_index_le (a b : Z * double) : Prop :=
  to_int (fst a) <= to_int (fst b).

(** An index is a [std::uint32_t]. *)
Definition is_uint32 (entry : Z * double) : Prop :=
  0 <= fst entry < uint32_modulus.

(** The message of the exception the Sparse constructor throws. *)
Definition duplicate_indices : failure :=
  RuntimeError "SparseConstantValue must not have duplicate indices".

(** The operation-specific tie-break, in the words of the specification. *)
Definition spec_tie_break (lhs rhs : Term) : Prop :=
  match op lhs with
  | Undef => False
  | Input | Output => index lhs = index rhs
  | Constant =>
      ConstantValue_eq (ConstantValueAttribute lhs)
        (ConstantValueAttribute rhs) = Ok true
  | Negate | Add | Sub | Mul | Relinearize | ModSwitch => True
  | RotateLeftConst | RotateRightConst =>
      RotationAttribute lhs = RotationAttribute rhs
  | Rescale => RescaleDivisorAttribute lhs = RescaleDivisorAttribute rhs
  | Encode =>
      EncodeAtScaleAttribute lhs = EncodeAtScaleAttribute rhs
      /\ EncodeAtLevelAttribute lhs = EncodeAtLevelAttribute rhs
  end.

(** No element of the set is semantically equal to [term]. *)
Definition no_equal_term (heap : Heap) (s : TermSet) (term : TermPtr) : Prop :=
  forall code p, In (code, p) s ->
    SemanticTermEquality (heap term) (heap p) = Ok false.

(** ** Sample values *)

Definition dense_0500 : DenseConstantValue :=
  mkDense 4 [0%float; 5%float; 0%float; 0%float].
Definition dense_1500 : DenseConstantValue :=
  mkDense 4 [1%float; 5%float; 0%float; 0%float].
Definition dense_12 : DenseConstantValue := mkDense 4 [1%float; 2%float].
Definition dense_1212 : DenseConstantValue :=
  mkDense 4 [1%float; 2%float; 1%float; 2%float].
Definition sparse_1_5 : SparseConstantValue := mkSparse 4 [(1, 5%float)].
Definition sparse_0_5 : SparseConstantValue := mkSparse 4 [(0, 5%float)].

(** A term of kind [o] without operands and with neutral attributes. *)
Definition leaf (o : Op) (c : ConstantValue) : Term :=
  mkTerm o [] 0 c 0 0 0 0.

Definition constant_dense : Term := leaf Constant (Dense dense_0500).
Definition constant_sparse : Term := leaf Constant (Sparse sparse_1_5).

(** Entries in no particular order, one of them zero-valued, and entries
    that list the index 1 twice, once with the value zero. *)
Definition sample_entries : list (Z * double) :=
  [(3, 2%float); (1, 0%float); (1, 5%float)].
Definition repeated_index_entries : list (Z * double) :=
  [(1, 0%float); (1, 5%float)].

(** The scenario of the specification: the constant [c1] at address 1, the
    sums [add1 = Add(c1, c1)] and [add2 = Add(c1, c1)] at addresses 2 and 3,
    a user [Negate(add2)] at address 4 and a placeholder at address 5. *)
Definition sample_heap : Heap :=
  fun p =>
    if p =? 1 then leaf Constant (Dense dense_1212)
    else if p =? 2 then mkTerm Add [1; 1] 2 (Dense dense_1212) 0 0 0 0
    else if p =? 3 then mkTerm Add [1; 1] 3 (Dense dense_1212) 0 0 0 0
    else if p =? 4 then mkTerm Negate [3] 4 (Dense dense_1212) 0 0 0 0
    else leaf Undef (Dense dense_1212).

(** A store in which every term is a Constant that carries
    [Dense(4, [1,2])]. *)
Definition sub_period_heap : Heap :=
  fun _ => leaf Constant (Dense dense_12).

(** Hashers that return the value itself on integers and addresses. *)
Definition sample_hash : StdHash :=
  identity_hash to_size_t (fun _ => 0)
    (fun o => match o with Undef => 0 | Constant => 3 | Add => 11 | _ => 1 end)
    (fun p => p).

(** ** Serialization (constant_value.cpp)

    Modelled from the spec: [msg::ConstantValue] is generated from the message
    schema, which is not part of the sources at hand.  A message has a [size],
    a repeated field [values] and a repeated field [sparse_indices];
    [set_size] overwrites, [Add], [add_values] and [add_sparse_indices]
    append. *)

Record ConstantValueMsg : Type := mkMsg {
  msg_size : Z;
  msg_values : list double;
  msg_sparse_indices : list Z
}.

Definition set_size (msg : ConstantValueMsg) (size : Z) : ConstantValueMsg :=
  mkMsg size (msg_values msg) (msg_sparse_indices msg).

Definition add_values (msg : ConstantValueMsg) (value : double)
  : ConstantValueMsg :=
  mkMsg (msg_size msg) (msg_values msg ++ [value]) (msg_sparse_indices msg).

Definition add_sparse_indices (msg : ConstantValueMsg) (i : Z)
  : ConstantValueMsg :=
  mkMsg (msg_size msg) (msg_values msg) (msg_sparse_indices msg ++ [i]).

(** A message as it is default-constructed. *)
Definition empty_msg : ConstantValueMsg := mkMsg 0 [] [].

(** The loop [for (value : values) valuesMsg->Add(value)]. *)
Fixpoint add_all_values (values : list double) (msg : ConstantValueMsg)
  : ConstantValueMsg :=
  match values with
  | [] => msg
  | value :: rest => add_all_values rest (add_values msg value)
  end.

(** [DenseConstantValue::serialize(msg)]. *)
Definition Dense_serialize (this : DenseConstantValue) (msg : ConstantValueMsg)
  : ConstantValueMsg :=
  add_all_values (dense_values this) (set_size msg (dense_size this)).

(** The loop [for (pair : values) { msg.add_sparse_indices(pair.first);
                                    msg.add_values(pair.second); }]. *)
Fixpoint add_all_pairs (values : list (Z * double)) (msg : ConstantValueMsg)
  : ConstantValueMsg :=
  match values with
  | [] => msg
  | entry :: rest =>
      add_all_pairs rest
        (add_values (add_sparse_indices msg (fst entry)) (snd entry))
  end.

(** [SparseConstantValue::serialize(msg)]. *)
Definition Sparse_serialize (this : SparseConstantValue)
  (msg : ConstantValueMsg) : ConstantValueMsg :=
  add_all_pairs (sparse_values this) (set_size msg (sparse_size this)).

(** [x.serialize(msg)], virtual. *)
Definition ConstantValue_serialize (x : ConstantValue) (msg : ConstantValueMsg)
  : ConstantValueMsg :=
  match x with
  | Dense d => Dense_serialize d msg
  | Sparse s => Sparse_serialize s msg
  end.

(** ** Successive calls of the pass

    The pass object is called once for each term of a traversal; the calls
    thread the terms and the set. *)
Fixpoint process_all (H : StdHash) (st : CommonSubexpressionEliminator)
  (visited : list TermPtr) : outcome CommonSubexpressionEliminator :=
  match visited with
  | [] => Ok st
  | term :: rest => st' <- process H st term ;; process_all H st' rest
  end.

(** A constant value as the constructors build it: a Dense buffer that is not
    empty and whose length divides [size]; Sparse entries without zero
    values. *)
Definition constructed_dense (d : DenseConstantValue) : Prop :=
  DenseCV.make (dense_size d) (dense_values d) = Ok d.

Definition stores_nonzero (s : SparseConstantValue) : Prop :=
  Forall (fun entry => SparseCV.nonzero entry = true) (sparse_values s).

(** The two constants of a pair of Constant terms are stored alike: both
    Dense, or both Sparse, the second without zero entries. *)
Definition stored_alike (a b : ConstantValue) : Prop :=
  match a, b with
  | Dense _, Dense _ => True
  | Sparse _, Sparse s => stores_nonzero s
  | _, _ => False
  end.

(** A Dense value holds a buffer that is not empty, as every Dense value the
    constructor accepts does. *)
Definition has_buffer (x : ConstantValue) : Prop :=
  match x with
  | Dense d => dense_values d <> []
  | Sparse _ => True
  end.

(** No term of a traversal is semantically equal to a term visited before
    it. *)
Definition pairwise_unequal (heap : Heap) (visited : list TermPtr) : Prop :=
  ForallOrdPairs
    (fun earlier later =>
       SemanticTermEquality (heap later) (heap earlier) = Ok false)
    visited.

(** Every term of a traversal can be hashed. *)
Definition all_hashable (H : StdHash) (heap : Heap) (visited : list TermPtr)
  : Prop :=
  Forall (fun term => exists code, SemanticTermHash H (heap term) = Ok code)
    visited.

(** * Properties *)

(** ** Machine arithmetic and [hash_combine] *)

Lemma to_size_t_range (z : Z) : 0 <= to_size_t z < size_t_modulus.
Proof. unfold to_size_t. apply Z.mod_pos_bound. reflexivity. Qed.

Lemma to_size_t_small (z : Z) : 0 <= z < size_t_modulus -> to_size_t z = z.
Proof. intros Hz. unfold to_size_t. now apply Z.mod_small. Qed.

Lemma to_int_small (z : Z) : 0 <= z < 2 ^ 31 -> to_int z = z.
Proof.
  intros Hz. unfold to_int, uint32_modulus.
  rewrite Z.mod_small; lia.
Qed.

(** [to_int] separates the values of a [std::uint32_t]. *)
Lemma to_int_inj (a b : Z) :
  0 <= a < uint32_modulus -> 0 <= b < uint32_modulus ->
  to_int a = to_int b -> a = b.
Proof.
  unfold to_int, uint32_modulus. intros Ha Hb Heq.
  assert (Hm : (a + 2 ^ 31) mod 2 ^ 32 = (b + 2 ^ 31) mod 2 ^ 32) by lia.
  clear Heq.
  destruct (Z_lt_ge_dec a (2 ^ 31)) as [Ha'|Ha'];
    destruct (Z_lt_ge_dec b (2 ^ 31)) as [Hb'|Hb'].
  - rewrite !Z.mod_small in Hm by lia. lia.
  - rewrite (Z.mod_small (a + 2 ^ 31)) in Hm by lia.
    replace (b + 2 ^ 31) with (b - 2 ^ 31 + 1 * 2 ^ 32) in Hm by lia.
    rewrite Z.mod_add, Z.mod_small in Hm by lia. lia.
  - rewrite (Z.mod_small (b + 2 ^ 31)) in Hm by lia.
    replace (a + 2 ^ 31) with (a - 2 ^ 31 + 1 * 2 ^ 32) in Hm by lia.
    rewrite Z.mod_add, Z.mod_small in Hm by lia. lia.
  - replace (a + 2 ^ 31) with (a - 2 ^ 31 + 1 * 2 ^ 32) in Hm by lia.
    replace (b + 2 ^ 31) with (b - 2 ^ 31 + 1 * 2 ^ 32) in Hm by lia.
    rewrite !Z.mod_add, !Z.mod_small in Hm by lia. lia.
Qed.

Lemma lxor_cancel_l (h x y : Z) : Z.lxor h x = Z.lxor h y -> x = y.
Proof.
  intros Heq.
  assert (E : Z.lxor h (Z.lxor h x) = Z.lxor h (Z.lxor h y)) by now rewrite Heq.
  now rewrite <- !Z.lxor_assoc, Z.lxor_nilpotent, !Z.lxor_0_l in E.
Qed.

Lemma mod_add_cancel_r (a b k m : Z) :
  (a + k) mod m = (b + k) mod m -> a mod m = b mod m.
Proof.
  intros Heq.
  assert (shift : forall x, x mod m = ((x + k) mod m - k) mod m).
  { intros x. rewrite Zminus_mod_idemp_l. f_equal. lia. }
  rewrite (shift a), (shift b). now rewrite Heq.
Qed.

(** Two values that [hash_combine] sends to the same hash from the same
    starting hash have the same hash code modulo [2^64]. *)
Lemma hash_combine_inj (h a b : Z) :
  hash_combine h a = hash_combine h b -> to_size_t a = to_size_t b.
Proof.
  unfold hash_combine. intros Heq. apply lxor_cancel_l in Heq.
  unfold to_size_t in Heq |- *.
  apply (mod_add_cancel_r a b
           (0x9e3779b9 + (Z.shiftl h 6) mod size_t_modulus + Z.shiftr h 2)).
  rewrite !Z.add_assoc. exact Heq.
Qed.

Lemma lxor_range (n a b : Z) :
  0 <= n -> 0 <= a < 2 ^ n -> 0 <= b < 2 ^ n -> 0 <= Z.lxor a b < 2 ^ n.
Proof.
  intros Hn Ha Hb.
  assert (Hnn : 0 <= Z.lxor a b) by (apply Z.lxor_nonneg; lia).
  split; [exact Hnn|].
  destruct (Z.eq_dec (Z.lxor a b) 0) as [E|E].
  - rewrite E. apply Z.pow_pos_nonneg; lia.
  - apply Z.log2_lt_pow2; [lia|].
    eapply Z.le_lt_trans; [apply Z.log2_lxor; lia|].
    apply Z.max_lub_lt.
    + destruct (Z.eq_dec a 0) as [->|Ha0].
      * simpl. destruct (Z.eq_dec n 0) as [->|]; [|lia].
        exfalso. simpl in Ha, Hb. assert (a0 : b = 0) by lia. subst b.
        now apply E.
      * apply Z.log2_lt_pow2; lia.
    + destruct (Z.eq_dec b 0) as [->|Hb0].
      * simpl. destruct (Z.eq_dec n 0) as [->|]; [|lia].
        exfalso. simpl in Ha. assert (a0 : a = 0) by lia. subst a.
        now apply E.
      * apply Z.log2_lt_pow2; lia.
Qed.

(** [hash_combine] keeps a hash inside [std::size_t]. *)
Lemma hash_combine_range (h v : Z) :
  0 <= h < size_t_modulus -> 0 <= hash_combine h v < size_t_modulus.
Proof.
  intros Hh. unfold hash_combine, size_t_modulus.
  apply lxor_range; [lia|exact Hh|apply to_size_t_range].
Qed.

(** ** Equality of constant values *)

(** C1.  Equality does not compare the logical patterns.  A Dense value is
    equal to a Sparse value as soon as it matches the listed entries, whatever
    it holds at the other positions: [Dense(4, [1,5,0,0])] and
    [Sparse(4, [(1,5)])] compare equal in both directions although they differ
    at position 0.  Two Dense values are compared buffer by buffer:
    [Dense(4, [1,2])] and [Dense(4, [1,2,1,2])] compare unequal although they
    denote the same sequence. *)
Theorem equality_is_not_logical :
  ConstantValue_eq (Dense dense_1500) (Sparse sparse_1_5) = Ok true
  /\ ConstantValue_eq (Sparse sparse_1_5) (Dense dense_1500) = Ok true
  /\ spec_same_pattern (Dense dense_1500) (Sparse sparse_1_5) = false
  /\ ConstantValue_eq (Dense dense_12) (Dense dense_1212) = Ok false
  /\ spec_same_pattern (Dense dense_12) (Dense dense_1212) = true.
Proof. repeat split; vm_compute; reflexivity. Qed.

(** ** Zero test *)

(** The samples of the specification: [Sparse(4, [])] and
    [Dense(4, [0,0,0,0])] are zero, [Dense(4, [0,1,0,0])] is not. *)
Example zero_test :
  SparseCV.isZero (mkSparse 4 []) = true
  /\ DenseCV.isZero (mkDense 4 [0%float; 0%float; 0%float; 0%float]) = true
  /\ DenseCV.isZero (mkDense 4 [0%float; 1%float; 0%float; 0%float]) = false.
Proof. repeat split. Qed.

(** ** Hashing of constant values *)

(** The run-length hash of [Dense(4, [0,5,0,0])] ends with the trailing run
    2, that of [Sparse(4, [(1,5)])] with [size - prev = 3]. *)
Lemma dense_0500_hash (H : StdHash) :
  DenseCV.hash H dense_0500
  = Ok (hash_combine
          (hash_combine (hash_combine 0 (hash_size_t H 1))
             (hash_double H 5%float))
          (hash_size_t H 2)).
Proof. cbv -[hash_combine hash_size_t hash_double]. reflexivity. Qed.

Lemma sparse_1_5_hash (H : StdHash) :
  SparseCV.hash H sparse_1_5
  = hash_combine
      (hash_combine (hash_combine 0 (hash_uint32 H 1))
         (hash_double H 5%float))
      (hash_size_t H 3).
Proof. cbv -[hash_combine hash_size_t hash_uint32 hash_double]. reflexivity. Qed.

(** C2.  With the integer hashers of libstdc++ and libc++ and any hashers for
    the other types, [Dense(4, [0,5,0,0])] and [Sparse(4, [(1,5)])] both hash
    without failure, to different values. *)
Theorem hash_differs_across_representations
  (hi : Z -> Z) (hd : double -> Z) (ho : Op -> Z) (hp : TermPtr -> Z) :
  exists a b : Z,
    ConstantValue_hash (identity_hash hi hd ho hp) (Dense dense_0500) = Ok a
    /\ ConstantValue_hash (identity_hash hi hd ho hp) (Sparse sparse_1_5) = Ok b
    /\ a <> b.
Proof.
  unfold ConstantValue_hash.
  rewrite dense_0500_hash, sparse_1_5_hash.
  do 2 eexists. split; [reflexivity|]. split; [reflexivity|].
  cbn [identity_hash hash_size_t hash_uint32 hash_double].
  intros Heq. apply hash_combine_inj in Heq.
  vm_compute in Heq. discriminate Heq.
Qed.

(** The loop of [DenseConstantValue::hash] runs [size] times; it leaves the
    stored buffer as soon as the buffer is shorter. *)
Lemma dense_hash_loop_overruns (H : StdHash) (values : list double) (n : nat) :
  forall i hash zero_count : Z,
    0 <= i <= vsize values -> vsize values < i + Z.of_nat n ->
    DenseCV.hash_loop H values n i hash zero_count = Fail Undefined.
Proof.
  induction n as [|n IH]; intros i hash zero_count Hi Hn.
  - lia.
  - cbn [DenseCV.hash_loop]. unfold vector_index.
    destruct (Z.ltb_spec i (vsize values)) as [Hlt|Hge].
    + replace (0 <=? i) with true by (symmetry; apply Z.leb_le; lia).
      cbn [andb].
      destruct (nth_error values (Z.to_nat i)) as [v|]; [|reflexivity].
      cbn [bind].
      destruct (double_eq v 0%float); apply IH; lia.
    + rewrite andb_false_r. reflexivity.
Qed.

(** C8.  A Dense value whose stored buffer is shorter than [size] cannot be
    hashed: [hash()] reads [values[i]] for every [i < size], without a modulo,
    and so reads past the end of the buffer. *)
Theorem dense_hash_of_sub_period_is_undefined
  (H : StdHash) (d : DenseConstantValue) :
  vsize (dense_values d) < dense_size d ->
  DenseCV.hash H d = Fail Undefined.
Proof.
  intros Hshort. unfold DenseCV.hash.
  rewrite dense_hash_loop_overruns; [reflexivity| |].
  - unfold vsize. lia.
  - unfold vsize in *. lia.
Qed.

Lemma dense_hash_of_sub_period_is_undefined_witness :
  vsize (dense_values dense_12) < dense_size dense_12
  /\ forall H : StdHash, DenseCV.hash H dense_12 = Fail Undefined.
Proof.
  split; [reflexivity|].
  intros H. apply (dense_hash_of_sub_period_is_undefined H dense_12).
  reflexivity.
Defined.

(** ** Expansion *)

(** The validation passes exactly on the multiples of [size] that are at least
    [size]. *)
Lemma validateSlots_Ok_iff (size slots : Z) :
  0 < size ->
  (validateSlots size slots = Ok tt <-> size <= slots /\ slots mod size = 0).
Proof.
  intros Hsize. unfold validateSlots, size_t_rem.
  destruct (Z.ltb_spec slots size) as [Hlt|Hge].
  - split; [discriminate|lia].
  - replace (size =? 0) with false by (symmetry; apply Z.eqb_neq; lia).
    cbn [bind].
    destruct (Z.eqb_spec (slots mod size) 0) as [Hz|Hnz]; cbn [negb].
    + split; [intros _; split; assumption|reflexivity].
    + split; [discriminate|intros [_ Hz]; contradiction].
Qed.

(** Otherwise it throws [std::runtime_error]. *)
Lemma validateSlots_Fail (size slots : Z) :
  0 < size ->
  ~ (size <= slots /\ slots mod size = 0) ->
  exists what, validateSlots size slots = Fail (RuntimeError what).
Proof.
  intros Hsize Hbad. unfold validateSlots, size_t_rem.
  destruct (Z.ltb_spec slots size) as [Hlt|Hge]; [eexists; reflexivity|].
  replace (size =? 0) with false by (symmetry; apply Z.eqb_neq; lia).
  cbn [bind].
  destruct (Z.eqb_spec (slots mod size) 0) as [Hz|Hnz]; cbn [negb].
  - exfalso. apply Hbad. now split.
  - eexists; reflexivity.
Qed.

Lemma insert_times_concat (r : nat) (values : list double) :
  forall out, insert_times r values out = out ++ concat (repeat values r).
Proof.
  induction r as [|r IH]; intros out; simpl.
  - now rewrite app_nil_r.
  - now rewrite IH, app_assoc.
Qed.



(** C3.  The Sparse expansion does not tile the logical pattern: the inner
    loop advances by the number of stored entries instead of [size].
    [Sparse(4, [(0,5)])] expanded to 4 slots is [5,5,5,5], not [5,0,0,0]. *)
Theorem sparse_expand_is_not_the_tiled_pattern :
  SparseCV.expand sparse_0_5 (1 * 4)
  = Ok [5%float; 5%float; 5%float; 5%float]
  /\ SparseCV.expandTo sparse_0_5 (1 * 4)
     = Ok [5%float; 5%float; 5%float; 5%float]
  /\ spec_tiled 1 (spec_pattern (Sparse sparse_0_5))
     = [Some 5%float; Some 0%float; Some 0%float; Some 0%float].
Proof. repeat split; vm_compute; reflexivity. Qed.

(** C5.  A slot count that passes the validation can still make the Sparse
    expansion raise: for [Sparse(4, [(1,5)])] and 4 slots the validation
    succeeds and both [expand] and [expandTo] leave through
    [std::out_of_range], thrown by [scratch.at(4)]. *)
Theorem sparse_expand_raises_on_valid_slots :
  validateSlots (sparse_size sparse_1_5) 4 = Ok tt
  /\ SparseCV.expand sparse_1_5 4 = Fail OutOfRange
  /\ SparseCV.expandTo sparse_1_5 4 = Fail OutOfRange.
Proof. repeat split; vm_compute; reflexivity. Qed.

(** ** The semantic term model *)

Lemma Op_eqb_refl (o : Op) : Op_eqb o o = true.
Proof. destruct o; reflexivity. Qed.

Lemma Op_eqb_eq (a b : Op) : Op_eqb a b = true -> a = b.
Proof. destruct a, b; simpl; intros E; try reflexivity; discriminate E. Qed.

Lemma same_operands_refl (l : list TermPtr) : same_operands l l = true.
Proof.
  induction l as [|x l IH]; simpl; [reflexivity|].
  now rewrite Z.eqb_refl.
Qed.

(** The hash of a term lies inside [std::size_t] before the payload is
    combined. *)
Lemma hash_operands_range (H : StdHash) (ops : list TermPtr) :
  forall hash, 0 <= hash < size_t_modulus ->
               0 <= hash_operands H ops hash < size_t_modulus.
Proof.
  induction ops as [|o ops IH]; intros hash Hh; cbn [hash_operands];
    [exact Hh|].
  apply IH. apply hash_combine_range. exact Hh.
Qed.

Lemma same_operands_eq (lhs rhs : list TermPtr) :
  length lhs = length rhs -> same_operands lhs rhs = true -> lhs = rhs.
Proof.
  revert rhs. induction lhs as [|x lhs IH]; intros [|y rhs] Hlen Hsame;
    try discriminate Hlen; [reflexivity|].
  cbn [same_operands] in Hsame.
  destruct (Z.eqb_spec x y) as [->|Hne]; [|discriminate Hsame].
  cbn [negb] in Hsame. f_equal. apply IH; [|exact Hsame].
  now injection Hlen.
Qed.

(** Outside the Constant kind the hash is sound: two terms that the equality
    accepts have the same hash, whatever the hashers. *)
Lemma term_hash_sound_except_constant (H : StdHash) (lhs rhs : Term) :
  op lhs <> Constant ->
  SemanticTermEquality lhs rhs = Ok true ->
  SemanticTermHash H lhs = SemanticTermHash H rhs.
Proof.
  intros Hkind. unfold SemanticTermEquality, SemanticTermHash, numOperands.
  destruct (Op_eqb (op lhs) (op rhs)) eqn:Hop; [|discriminate].
  apply Op_eqb_eq in Hop. rewrite <- Hop. cbn [negb].
  destruct (Z.eqb_spec (vsize (operands lhs)) (vsize (operands rhs)))
    as [Hlen|Hlen]; [|discriminate].
  cbn [negb].
  destruct (same_operands (operands lhs) (operands rhs)) eqn:Hsame;
    [|discriminate].
  apply same_operands_eq in Hsame; [|unfold vsize in Hlen; lia].
  rewrite <- Hsame. cbn [negb].
  destruct (op lhs); try contradiction; intros Heq; try reflexivity;
    try discriminate Heq; injection Heq as Heq;
    repeat match goal with
           | E : (_ && _)%bool = true |- _ => apply andb_prop in E; destruct E
           | E : (_ =? _) = true |- _ => apply Z.eqb_eq in E; rewrite E
           end;
    reflexivity.
Qed.

(** C4.  The term hash is not sound for constants.  The two Constant terms
    that carry [Dense(4, [0,5,0,0])] and [Sparse(4, [(1,5)])] are judged equal
    by [SemanticTermEquality], in both directions, and, with the integer
    hashers of libstdc++ and libc++, [SemanticTermHash] gives them different
    hashes. *)
Theorem term_hash_differs_on_equal_constants
  (hi : Z -> Z) (hd : double -> Z) (ho : Op -> Z) (hp : TermPtr -> Z) :
  SemanticTermEquality constant_dense constant_sparse = Ok true
  /\ SemanticTermEquality constant_sparse constant_dense = Ok true
  /\ exists a b : Z,
       SemanticTermHash (identity_hash hi hd ho hp) constant_dense = Ok a
       /\ SemanticTermHash (identity_hash hi hd ho hp) constant_sparse = Ok b
       /\ a <> b.
Proof.
  split; [vm_compute; reflexivity|]. split; [vm_compute; reflexivity|].
  unfold SemanticTermHash, constant_dense, constant_sparse, leaf.
  cbn [op operands ConstantValueAttribute hash_operands ConstantValue_hash].
  rewrite dense_0500_hash, sparse_1_5_hash. cbn [bind].
  do 2 eexists. split; [reflexivity|]. split; [reflexivity|].
  cbn [identity_hash hash_size_t hash_uint32 hash_double hash_Op].
  intros Heq. apply hash_combine_inj in Heq.
  assert (H0 : 0 <= 0 < size_t_modulus) by (split; [lia|reflexivity]).
  assert (Hx : 0 <= hash_combine (hash_combine 0 1) (hd 5%float)
               < size_t_modulus).
  { apply hash_combine_range, hash_combine_range. exact H0. }
  rewrite !to_size_t_small in Heq by (apply hash_combine_range; exact Hx).
  apply hash_combine_inj in Heq. vm_compute in Heq. discriminate Heq.
Qed.

(** Nothing is found in a set that holds no equal term. *)
Lemma find_equal_none (heap : Heap) (code : Z) (term : TermPtr) (s : TermSet) :
  no_equal_term heap s term -> find_equal heap code term s = Ok None.
Proof.
  induction s as [|[code' p] s IH]; intros Hno; simpl; [reflexivity|].
  assert (Hrest : find_equal heap code term s = Ok None).
  { apply IH. intros c q Hin. apply (Hno c q). now right. }
  destruct (code' =? code); [|exact Hrest].
  rewrite (Hno code' p) by now left.
  exact Hrest.
Qed.

(** What is found is an element of the set that the equality accepts. *)
Lemma find_equal_some (heap : Heap) (code : Z) (term rep : TermPtr)
  (s : TermSet) :
  find_equal heap code term s = Ok (Some rep) ->
  In (code, rep) s /\ SemanticTermEquality (heap term) (heap rep) = Ok true.
Proof.
  induction s as [|[code' p] s IH]; simpl; intros Hfind; [discriminate Hfind|].
  destruct (Z.eqb_spec code' code) as [->|Hne].
  - destruct (SemanticTermEquality (heap term) (heap p)) as [[|]|e] eqn:E;
      simpl in Hfind.
    + injection Hfind as <-. split; [now left|exact E].
    + destruct (IH Hfind) as [Hin Heq]. split; [now right|exact Heq].
    + discriminate Hfind.
  - destruct (IH Hfind) as [Hin Heq]. split; [now right|exact Heq].
Qed.

Lemma undef_equality_left (lhs rhs : Term) :
  op lhs = Undef -> SemanticTermEquality lhs rhs = Ok false.
Proof.
  intros Hop. unfold SemanticTermEquality. rewrite Hop.
  destruct (Op_eqb Undef (op rhs)); [|reflexivity]. simpl.
  destruct (numOperands lhs =? numOperands rhs); [|reflexivity]. simpl.
  now destruct (same_operands (operands lhs) (operands rhs)).
Qed.

Lemma undef_equality_right (lhs rhs : Term) :
  op rhs = Undef -> SemanticTermEquality lhs rhs = Ok false.
Proof.
  intros Hop. unfold SemanticTermEquality.
  destruct (Op_eqb (op lhs) (op rhs)) eqn:E; [|reflexivity].
  apply Op_eqb_eq in E. rewrite E, Hop. simpl.
  destruct (numOperands lhs =? numOperands rhs); [|reflexivity]. simpl.
  now destruct (same_operands (operands lhs) (operands rhs)).
Qed.

(** C6.  A term of kind Undef is equal to no term, on either side of the
    comparison, itself included; processing it inserts it into the set and
    leaves every term as it was, whatever the set already holds. *)
Theorem undef_is_never_equal
  (H : StdHash) (st : CommonSubexpressionEliminator) (term : TermPtr) :
  op (terms st term) = Undef ->
  (forall other : Term,
      SemanticTermEquality (terms st term) other = Ok false
      /\ SemanticTermEquality other (terms st term) = Ok false)
  /\ exists code : Z,
       process H st term
       = Ok (mkCSE (terms st) (unique_terms st ++ [(code, term)])).
Proof.
  intros Hop. split.
  - intros other. split.
    + now apply undef_equality_left.
    + now apply undef_equality_right.
  - unfold process, insert, SemanticTermHash. rewrite Hop. cbn [bind].
    rewrite find_equal_none.
    + eexists. reflexivity.
    + intros c p _. now apply undef_equality_left.
Qed.

Lemma undef_is_never_equal_witness :
  op (sample_heap 5) = Undef
  /\ SemanticTermEquality (sample_heap 5) (sample_heap 5) = Ok false
  /\ exists code : Z,
       process sample_hash (mkCSE sample_heap [(0, 5)]) 5
       = Ok (mkCSE sample_heap ([(0, 5)] ++ [(code, 5)])).
Proof.
  split; [reflexivity|].
  destruct (undef_is_never_equal sample_hash (mkCSE sample_heap [(0, 5)]) 5
              eq_refl) as [Hneq Hproc].
  split; [exact (proj1 (Hneq (sample_heap 5)))|exact Hproc].
Defined.

(** C7.  For two terms of the same kind with identical operand lists the
    equality is decided by the tie-break of the kind: it always holds for
    Negate, Add, Sub, Mul, Relinearize and ModSwitch; for Input and Output it
    holds iff the indices are equal; for RotateLeftConst and RotateRightConst
    iff the rotations are equal; for Rescale iff the divisors are equal; for
    Encode iff both the scales and the levels are equal; and for Constant it
    is the result of comparing the attached constant values. *)
Theorem equality_tie_break (lhs rhs : Term) :
  op lhs = op rhs ->
  operands lhs = operands rhs ->
  (SemanticTermEquality lhs rhs = Ok true <-> spec_tie_break lhs rhs)
  /\ (op lhs <> Constant -> exists b : bool, SemanticTermEquality lhs rhs = Ok b)
  /\ (op lhs = Constant ->
      SemanticTermEquality lhs rhs
      = ConstantValue_eq (ConstantValueAttribute lhs)
          (ConstantValueAttribute rhs)).
Proof.
  intros Hop Hops.
  unfold SemanticTermEquality, spec_tie_break, numOperands.
  rewrite <- Hop, <- Hops, Op_eqb_refl, Z.eqb_refl, same_operands_refl.
  cbn [negb].
  destruct (op lhs); repeat split; intros; try tauto; try congruence;
    try (eexists; reflexivity);
    repeat match goal with
           | E : Ok _ = Ok _ |- _ => injection E as E
           | E : (_ && _)%bool = true |- _ => apply andb_prop in E; destruct E
           | E : (_ =? _) = true |- _ => apply Z.eqb_eq in E
           | E : _ /\ _ |- _ => destruct E
           end;
    try assumption;
    try (f_equal; try apply andb_true_intro; try split; now apply Z.eqb_eq).
Qed.

Lemma equality_tie_break_witness :
  op (sample_heap 2) = op (sample_heap 3)
  /\ operands (sample_heap 2) = operands (sample_heap 3)
  /\ SemanticTermEquality (sample_heap 2) (sample_heap 3) = Ok true.
Proof.
  split; [reflexivity|]. split; [reflexivity|].
  apply (proj1 (equality_tie_break (sample_heap 2) (sample_heap 3)
                  eq_refl eq_refl)).
  exact I.
Defined.

(** ** The CSE pass *)

(** Frame condition of [process].  When the hash of [term] is computed
    and no element of the set is semantically equal to [term], [term] is
    appended to the set and the store of terms is returned as it was.
    Whenever [process] returns, it has either done just that, or found an
    element [rep] of the set that the equality accepts and redirected the
    users of [term] to [rep], the set unchanged. *)
Theorem process_frame_condition
  (H : StdHash) (st : CommonSubexpressionEliminator) (term : TermPtr) :
  (forall code : Z,
      SemanticTermHash H (terms st term) = Ok code ->
      no_equal_term (terms st) (unique_terms st) term ->
      process H st term
      = Ok (mkCSE (terms st) (unique_terms st ++ [(code, term)])))
  /\ (forall st' : CommonSubexpressionEliminator,
         process H st term = Ok st' ->
         (exists code : Z,
             st' = mkCSE (terms st) (unique_terms st ++ [(code, term)]))
         \/ (exists (code : Z) (rep : TermPtr),
                In (code, rep) (unique_terms st)
                /\ SemanticTermEquality (terms st term) (terms st rep) = Ok true
                /\ st' = mkCSE (replaceAllUsesWith (terms st) term rep)
                           (unique_terms st))).
Proof.
  split.
  - intros code Hcode Hno. unfold process, insert.
    rewrite Hcode. cbn [bind]. rewrite (find_equal_none _ _ _ _ Hno).
    reflexivity.
  - intros st' Hproc. unfold process, insert in Hproc.
    destruct (SemanticTermHash H (terms st term)) as [code|e];
      cbn [bind] in Hproc; [|discriminate Hproc].
    destruct (find_equal (terms st) code term (unique_terms st))
      as [[rep|]|e] eqn:Hfind; cbn [bind negb] in Hproc.
    + injection Hproc as <-. right. exists code, rep.
      destruct (find_equal_some _ _ _ _ _ Hfind) as [Hin Heq].
      repeat split; assumption.
    + injection Hproc as <-. left. exists code. reflexivity.
    + discriminate Hproc.
Qed.

Lemma process_frame_condition_witness :
  no_equal_term sample_heap [(706421285425406, 1)] 2
  /\ process sample_hash (mkCSE sample_heap [(706421285425406, 1)]) 2
     = Ok (mkCSE sample_heap
             ([(706421285425406, 1)] ++ [(11093822689626, 2)]))
  /\ process sample_hash
       (mkCSE sample_heap [(706421285425406, 1); (11093822689626, 2)]) 3
     = Ok (mkCSE (replaceAllUsesWith sample_heap 3 2)
                 [(706421285425406, 1); (11093822689626, 2)]).
Proof.
  assert (Hno : no_equal_term sample_heap [(706421285425406, 1)] 2).
  { intros code p [Hin|[]]. injection Hin as _ <-. reflexivity. }
  split; [exact Hno|]. split.
  - apply (proj1 (process_frame_condition sample_hash
                    (mkCSE sample_heap [(706421285425406, 1)]) 2)).
    + vm_compute. reflexivity.
    + exact Hno.
  - unfold process, insert.
    set (h := SemanticTermHash _ _). vm_compute in h. subst h. cbn [bind].
    set (f := find_equal _ _ _ _). vm_compute in f. subst f. cbn [bind negb].
    reflexivity.
Defined.

(** C10.  The frame condition does not hold of every term.  [process] starts
    by hashing [term]; when [term] is a Constant that carries a Dense value
    whose buffer is shorter than [size], a value the constructor accepts, the
    hash reads past the end of the buffer, whatever the set holds, and so also
    when no element of the set is semantically equal to [term]: the term is
    not inserted, the call has undefined behaviour. *)
Theorem process_undefined_on_sub_period_constant
  (H : StdHash) (st : CommonSubexpressionEliminator) (term : TermPtr)
  (d : DenseConstantValue) :
  op (terms st term) = Constant ->
  ConstantValueAttribute (terms st term) = Dense d ->
  vsize (dense_values d) < dense_size d ->
  process H st term = Fail Undefined.
Proof.
  intros Hop Hcv Hshort.
  unfold process, insert, SemanticTermHash.
  rewrite Hop, Hcv. cbn [ConstantValue_hash]. unfold DenseCV.hash.
  rewrite dense_hash_loop_overruns; [reflexivity| |].
  - unfold vsize. lia.
  - unfold vsize in *. lia.
Qed.

Lemma process_undefined_on_sub_period_constant_witness :
  constructed_dense dense_12
  /\ no_equal_term sub_period_heap [] 1
  /\ process sample_hash (mkCSE sub_period_heap []) 1 = Fail Undefined.
Proof.
  split; [reflexivity|]. split; [intros code p []|].
  apply (process_undefined_on_sub_period_constant sample_hash
           (mkCSE sub_period_heap []) 1 dense_12); reflexivity.
Defined.

(** ** Construction of Sparse values *)

Lemma ordered_insert_perm (x : Z * double) (l : list (Z * double)) :
  Permutation (ordered_insert x l) (x :: l).
Proof.
  induction l as [|y l IH]; simpl; [apply Permutation_refl|].
  destruct (int_index_ltb y x).
  - eapply perm_trans; [apply perm_skip, IH|apply perm_swap].
  - apply Permutation_refl.
Qed.

Lemma ordered_sort_perm (l : list (Z * double)) : Permutation (ordered_sort l) l.
Proof.
  induction l as [|x l IH]; simpl; [apply perm_nil|].
  eapply perm_trans; [apply ordered_insert_perm|now apply perm_skip].
Qed.

Lemma ordered_insert_sorted (x : Z * double) (l : list (Z * double)) :
  StronglySorted int_index_le l -> StronglySorted int_index_le (ordered_insert x l).
Proof.
  induction l as [|y l IH]; intros Hs; simpl.
  - constructor; constructor.
  - inversion Hs as [|? ? Hl Hy]; subst.
    unfold int_index_ltb. destruct (Z.ltb_spec (to_int (fst y)) (to_int (fst x))).
    + constructor; [now apply IH|].
      apply (Permutation_Forall (Permutation_sym (ordered_insert_perm x l))).
      constructor; [unfold int_index_le; lia|exact Hy].
    + constructor; [exact Hs|].
      constructor; [unfold int_index_le; lia|].
      eapply Forall_impl; [|exact Hy].
      unfold int_index_le. intros z Hz. lia.
Qed.

Lemma ordered_sort_sorted (l : list (Z * double)) :
  StronglySorted int_index_le (ordered_sort l).
Proof.
  induction l as [|x l IH]; simpl; [constructor|].
  now apply ordered_insert_sorted.
Qed.

(** The scan either passes or throws the one exception. *)
Lemma check_duplicates_cases (prev : Z) (rest : list (Z * double)) :
  SparseCV.check_duplicates prev rest = Ok tt
  \/ SparseCV.check_duplicates prev rest = Fail duplicate_indices.
Proof.
  revert prev. induction rest as [|e rest IH]; intros prev; simpl.
  - now left.
  - destruct (fst e =? prev); [now right|apply IH].
Qed.

(** A sorted list that passes the scan is strictly sorted. *)
Lemma check_duplicates_strict (e : Z * double) (rest : list (Z * double)) :
  StronglySorted int_index_le (e :: rest) ->
  Forall is_uint32 (e :: rest) ->
  SparseCV.check_duplicates (fst e) rest = Ok tt ->
  StronglySorted int_index_lt (e :: rest).
Proof.
  revert e. induction rest as [|e2 rest IH]; intros e Hs Hr Hc.
  - constructor; constructor.
  - simpl in Hc. destruct (Z.eqb_spec (fst e2) (fst e)) as [Heq|Hne];
      [discriminate Hc|].
    inversion Hs as [|? ? Hs2 Hle]; subst.
    inversion Hr as [|? ? He Hr2]; subst.
    assert (Hs2' : StronglySorted int_index_lt (e2 :: rest)) by now apply IH.
    constructor; [exact Hs2'|].
    assert (Hlt : int_index_lt e e2).
    { inversion Hle as [|? ? Hle2 _]; subst.
      inversion Hr2 as [|? ? He2 _]; subst.
      unfold int_index_lt, int_index_le in *.
      destruct (Z.eq_dec (to_int (fst e)) (to_int (fst e2))) as [E|E]; [|lia].
      apply to_int_inj in E; [congruence|exact He|exact He2]. }
    constructor; [exact Hlt|].
    inversion Hs2' as [|? ? _ Hlt2]; subst.
    eapply Forall_impl; [|exact Hlt2].
    unfold int_index_lt in *. intros z Hz. lia.
Qed.

(** The scan throws only when an index occurs twice. *)
Lemma check_duplicates_fail (prev : Z) (rest : list (Z * double)) (e : failure) :
  SparseCV.check_duplicates prev rest = Fail e ->
  ~ NoDup (prev :: map fst rest).
Proof.
  revert prev. induction rest as [|e2 rest IH]; intros prev Hc Hnd;
    simpl in Hc; [discriminate Hc|].
  destruct (Z.eqb_spec (fst e2) prev) as [Heq|Hne].
  - inversion Hnd as [|? ? Hnotin _]; subst. apply Hnotin. now left.
  - apply (IH (fst e2) Hc). now inversion Hnd.
Qed.

Lemma strictly_sorted_NoDup (l : list (Z * double)) :
  StronglySorted int_index_lt l -> NoDup (map fst l).
Proof.
  induction 1 as [|x l Hs IH Hlt]; simpl; constructor; [|exact IH].
  intros Hin. apply in_map_iff in Hin. destruct Hin as [z [Hz Hzin]].
  rewrite Forall_forall in Hlt. specialize (Hlt z Hzin).
  unfold int_index_lt in Hlt. rewrite Hz in Hlt. lia.
Qed.

(** Below [2^31] the order of the comparator is the order of the indices. *)
Lemma int_sorted_index_sorted (l : list (Z * double)) :
  Forall (fun e => 0 <= fst e < 2 ^ 31) l ->
  StronglySorted int_index_lt l -> StronglySorted index_lt l.
Proof.
  intros Hr Hs. induction Hs as [|x l Hs IH Hlt]; [constructor|].
  inversion Hr as [|? ? Hx Hl]; subst.
  constructor; [now apply IH|].
  rewrite Forall_forall in *. intros z Hz.
  specialize (Hlt z Hz). specialize (Hl z Hz).
  unfold int_index_lt, index_lt in *.
  rewrite !to_int_small in Hlt by assumption. exact Hlt.
Qed.

Lemma vsize_pos_iff {A : Type} (l : list A) : (0 <? vsize l) = true <-> l <> [].
Proof.
  unfold vsize. destruct l as [|x l]; split; intros Hl.
  - discriminate Hl.
  - exfalso. now apply Hl.
  - discriminate.
  - apply Z.ltb_lt. cbn [length]. lia.
Qed.

(** A stored entry that lists a position makes the pattern nonzero there. *)
Lemma spec_sparse_entry_nonzero (size : Z) (stored : list (Z * double))
  (e : Z * double) :
  Forall (fun x => SparseCV.nonzero x = true) stored ->
  In e stored ->
  double_eq (spec_sparse_entry (mkSparse size stored) (fst e)) 0%float = false.
Proof.
  intros Hnz Hin. unfold spec_sparse_entry. cbn [sparse_values].
  destruct (find (fun entry => fst entry =? fst e) stored) as [e'|] eqn:Hfind.
  - apply find_some in Hfind. destruct Hfind as [Hin' _].
    rewrite Forall_forall in Hnz. specialize (Hnz e' Hin').
    unfold SparseCV.nonzero, double_ne in Hnz. unfold double_eq.
    now apply negb_true_iff in Hnz.
  - exfalso. apply (find_none _ _ Hfind) in Hin.
    now rewrite Z.eqb_refl in Hin.
Qed.

(** Two strictly sorted arrangements of the same entries are the same list. *)
Lemma sorted_unique (l1 l2 : list (Z * double)) :
  StronglySorted int_index_lt l1 -> StronglySorted int_index_lt l2 ->
  Permutation l1 l2 -> l1 = l2.
Proof.
  revert l2. induction l1 as [|x l1 IH]; intros l2 Hs1 Hs2 Hp.
  - now apply Permutation_nil in Hp.
  - destruct l2 as [|y l2].
    + apply Permutation_sym, Permutation_nil in Hp. discriminate Hp.
    + inversion Hs1 as [|? ? Hs1' Hx]; subst.
      inversion Hs2 as [|? ? Hs2' Hy]; subst.
      rewrite Forall_forall in Hx, Hy.
      assert (Hxy : x = y).
      { assert (Hxin : In x (y :: l2))
          by (apply (Permutation_in _ Hp); now left).
        assert (Hyin : In y (x :: l1))
          by (apply (Permutation_in _ (Permutation_sym Hp)); now left).
        destruct Hxin as [E|Hxin]; [now symmetry|].
        destruct Hyin as [E|Hyin]; [exact E|].
        specialize (Hx y Hyin). specialize (Hy x Hxin).
        unfold int_index_lt in Hx, Hy. lia. }
      subst y. f_equal. apply IH; try assumption.
      now apply Permutation_cons_inv in Hp.
Qed.

(** Where the conversions are defined, the constructor is the same function
    for every implementation of [std::sort]: one that returns a permutation
    of its argument on which the comparator never orders an entry before an
    earlier one. *)
Lemma make_independent_of_sort (sort : list (Z * double) -> list (Z * double))
  (size : Z) (values : list (Z * double)) :
  (forall l, Permutation (sort l) l) ->
  (forall l, StronglySorted int_index_le (sort l)) ->
  Forall is_uint32 values ->
  SparseCV.make_with (fun l => Ok (sort l)) size values
  = ordered_make size values.
Proof.
  intros Hperm Hsorted Hu32.
  unfold ordered_make, SparseCV.make_with. cbn [bind].
  set (kept := filter SparseCV.nonzero values).
  destruct (0 <? vsize kept); [|reflexivity].
  assert (Hu : forall l, Permutation l kept -> Forall is_uint32 l).
  { intros l Hl. rewrite Forall_forall in *. intros e He. apply Hu32.
    apply (Permutation_in _ Hl) in He. now apply filter_In in He. }
  pose proof (Hperm kept) as Hp1. pose proof (ordered_sort_perm kept) as Hp2.
  pose proof (Hsorted kept) as Hs1. pose proof (ordered_sort_sorted kept) as Hs2.
  pose proof (Hu _ Hp1) as Hu1. pose proof (Hu _ Hp2) as Hu2.
  assert (Hp12 : Permutation (sort kept) (ordered_sort kept))
    by (eapply perm_trans; [exact Hp1|now apply Permutation_sym]).
  destruct (sort kept) as [|a l1]; destruct (ordered_sort kept) as [|b l2].
  - reflexivity.
  - apply Permutation_nil in Hp12. discriminate Hp12.
  - apply Permutation_sym, Permutation_nil in Hp12. discriminate Hp12.
  - destruct (check_duplicates_cases (fst a) l1) as [Hc1|Hc1];
      destruct (check_duplicates_cases (fst b) l2) as [Hc2|Hc2];
      rewrite Hc1, Hc2; cbn [bind].
    + do 2 f_equal. apply sorted_unique; [| |exact Hp12];
        now apply check_duplicates_strict.
    + exfalso. apply (check_duplicates_fail _ _ _ Hc2).
      apply (Permutation_NoDup (Permutation_map fst Hp12)).
      apply strictly_sorted_NoDup. now apply check_duplicates_strict.
    + exfalso. apply (check_duplicates_fail _ _ _ Hc1).
      apply (Permutation_NoDup
               (Permutation_map fst (Permutation_sym Hp12))).
      apply strictly_sorted_NoDup. now apply check_duplicates_strict.
    + reflexivity.
Qed.

(** What the constructor does once the range is sorted. *)
Lemma ordered_make_normalizes (size : Z) (values : list (Z * double)) :
  Forall is_uint32 values ->
  (~ NoDup (map fst (filter SparseCV.nonzero values)) ->
   ordered_make size values = Fail duplicate_indices)
  /\ (NoDup (map fst (filter SparseCV.nonzero values)) ->
      exists stored : list (Z * double),
        ordered_make size values = Ok (mkSparse size stored)
        /\ Permutation stored (filter SparseCV.nonzero values)
        /\ StronglySorted int_index_lt stored
        /\ (Forall (fun e => fst e < 2 ^ 31) values ->
            StronglySorted index_lt stored)
        /\ (SparseCV.isZero (mkSparse size stored) = true <-> stored = [])
        /\ (Forall (fun e => fst e < size) values ->
            (SparseCV.isZero (mkSparse size stored) = true
             <-> forall i : Z, 0 <= i < size ->
                   double_eq (spec_sparse_entry (mkSparse size stored) i)
                     0%float = true))).
Proof.
  intros Hu32.
  set (kept := filter SparseCV.nonzero values).
  assert (Hkept : forall e, In e kept -> In e values /\ SparseCV.nonzero e = true)
    by (intros e He; now apply filter_In in He).
  assert (Hperm : Permutation (ordered_sort kept) kept) by apply ordered_sort_perm.
  assert (Hsorted : StronglySorted int_index_le (ordered_sort kept))
    by apply ordered_sort_sorted.
  assert (Hu32s : Forall is_uint32 (ordered_sort kept)).
  { rewrite Forall_forall in *. intros e He. apply Hu32, Hkept.
    now apply (Permutation_in _ Hperm). }
  assert (HisZero : forall stored,
             SparseCV.isZero (mkSparse size stored) = true <-> stored = []).
  { intros stored. unfold SparseCV.isZero, vsize. cbn [sparse_values].
    destruct stored as [|x stored]; split; intros E.
    - reflexivity.
    - reflexivity.
    - apply Z.eqb_eq in E. cbn [length] in E. lia.
    - discriminate E. }
  unfold ordered_make, SparseCV.make_with. cbn [bind]. fold kept.
  destruct (0 <? vsize kept) eqn:Hpos.
  - (* at least one entry is kept *)
    apply vsize_pos_iff in Hpos.
    destruct (ordered_sort kept) as [|first rest] eqn:Hsort.
    { exfalso. apply Hpos. now apply Permutation_nil. }
    split.
    + intros Hdup.
      destruct (check_duplicates_cases (fst first) rest) as [Hc|Hc];
        rewrite Hc; [|reflexivity].
      exfalso. apply Hdup.
      apply (Permutation_NoDup (Permutation_map fst Hperm)).
      apply strictly_sorted_NoDup.
      now apply check_duplicates_strict.
    + intros Hnd.
      destruct (check_duplicates_cases (fst first) rest) as [Hc|Hc].
      * rewrite Hc. cbn [bind]. exists (first :: rest).
        assert (Hstrict : StronglySorted int_index_lt (first :: rest))
          by now apply check_duplicates_strict.
        assert (Hnz : Forall (fun x => SparseCV.nonzero x = true)
                        (first :: rest)).
        { rewrite Forall_forall. intros e He. apply Hkept.
          now apply (Permutation_in _ Hperm). }
        split; [reflexivity|]. split; [exact Hperm|].
        split; [exact Hstrict|]. split; [|split; [apply HisZero|]].
        -- intros Hsmall. apply int_sorted_index_sorted; [|exact Hstrict].
           rewrite Forall_forall in *. intros e He.
           assert (Hv : In e values)
             by (apply Hkept; now apply (Permutation_in _ Hperm)).
           specialize (Hu32 e Hv). specialize (Hsmall e Hv).
           unfold is_uint32 in Hu32. cbv beta in Hsmall. lia.
        -- intros Hin. split.
           ++ intros Hz. apply HisZero in Hz. discriminate Hz.
           ++ intros Hall. exfalso.
              assert (Hv : In first values)
                by (apply Hkept; apply (Permutation_in _ Hperm); now left).
              rewrite Forall_forall in Hu32, Hin.
              specialize (Hu32 first Hv). specialize (Hin first Hv).
              unfold is_uint32 in Hu32. cbv beta in Hin.
              assert (Hfirst : 0 <= fst first < size) by lia.
              specialize (Hall (fst first) Hfirst).
              rewrite (spec_sparse_entry_nonzero size (first :: rest) first)
                in Hall; [discriminate Hall|exact Hnz|now left].
      * exfalso. apply (check_duplicates_fail _ _ _ Hc).
        apply (Permutation_NoDup
                 (Permutation_sym (Permutation_map fst Hperm)) Hnd).
  - (* nothing is kept *)
    assert (Hnil : kept = []).
    { destruct kept as [|e k]; [reflexivity|].
      assert (Hne : e :: k <> []) by discriminate.
      apply vsize_pos_iff in Hne. congruence. }
    rewrite Hnil. split.
    + intros Hdup. exfalso. apply Hdup. constructor.
    + intros _. exists []. split; [reflexivity|]. split; [apply perm_nil|].
      split; [constructor|]. split; [intros _; constructor|].
      split; [apply HisZero|].
      intros _. split; [intros _ i _; reflexivity|intros _; reflexivity].
Qed.

(** *** The sort and the conversions of its comparator *)

Lemma index_less_defined (p1 p2 : Z * double) :
  fits_int (snd p1) = true -> fits_int (snd p2) = true ->
  index_less p1 p2 = Ok (int_index_ltb p1 p2).
Proof.
  intros H1 H2. unfold index_less, to_int_pair_first. now rewrite H1, H2.
Qed.

Lemma index_less_undefined (p1 p2 : Z * double) :
  fits_int (snd p1) && fits_int (snd p2) = false ->
  index_less p1 p2 = Fail Undefined.
Proof.
  unfold index_less, to_int_pair_first. intros H.
  destruct (fits_int (snd p1)); [|reflexivity].
  cbn [andb] in H. now rewrite H.
Qed.

Lemma sort_insert_defined (x : Z * double) (l : list (Z * double)) :
  fits_int (snd x) = true ->
  forallb (fun entry => fits_int (snd entry)) l = true ->
  sort_insert x l = Ok (ordered_insert x l).
Proof.
  intros Hx. induction l as [|y l IH]; intros Hl; [reflexivity|].
  cbn [forallb] in Hl. apply andb_prop in Hl. destruct Hl as [Hy Hl].
  cbn [sort_insert ordered_insert].
  rewrite (index_less_defined y x Hy Hx). cbn [bind].
  destruct (int_index_ltb y x); [|reflexivity].
  now rewrite (IH Hl).
Qed.

Lemma forallb_perm {A : Type} (f : A -> bool) (a b : list A) :
  Permutation a b -> forallb f a = forallb f b.
Proof.
  induction 1 as [|x a b Hp IH|x y a|a b c H1 IH1 H2 IH2]; cbn [forallb].
  - reflexivity.
  - now rewrite IH.
  - now destruct (f x), (f y).
  - congruence.
Qed.

Lemma std_sort_defined (l : list (Z * double)) :
  forallb (fun entry => fits_int (snd entry)) l = true ->
  std_sort l = Ok (ordered_sort l).
Proof.
  induction l as [|x l IH]; intros Hl; [reflexivity|].
  cbn [forallb] in Hl. apply andb_prop in Hl. destruct Hl as [Hx Hl].
  cbn [std_sort ordered_sort]. rewrite (IH Hl). cbn [bind].
  apply sort_insert_defined; [exact Hx|].
  now rewrite (forallb_perm _ _ _ (ordered_sort_perm l)).
Qed.

(** A range of two or more entries, one of which holds a value that does not
    convert to [int], cannot be sorted: a call of the comparator converts
    that value. *)
Lemma std_sort_undefined (l : list (Z * double)) :
  (2 <= length l)%nat ->
  forallb (fun entry => fits_int (snd entry)) l = false ->
  std_sort l = Fail Undefined.
Proof.
  induction l as [|x l IH]; intros Hlen Hl; [cbn [length] in Hlen; lia|].
  cbn [std_sort].
  destruct (forallb (fun entry => fits_int (snd entry)) l) eqn:Hrest.
  - (* the entries after [x] convert, [x] does not *)
    cbn [forallb] in Hl. rewrite Hrest, andb_true_r in Hl.
    rewrite (std_sort_defined l Hrest). cbn [bind].
    pose proof (ordered_sort_perm l) as Hp.
    rewrite <- (forallb_perm _ _ _ Hp) in Hrest.
    destruct (ordered_sort l) as [|y sorted].
    + apply Permutation_nil in Hp. subst l. cbn [length] in Hlen. lia.
    + cbn [sort_insert]. rewrite index_less_undefined; [reflexivity|].
      now rewrite Hl, andb_false_r.
  - destruct l as [|y l]; [discriminate Hrest|].
    destruct l as [|z l].
    + (* two entries, the second does not convert *)
      cbn [forallb] in Hrest. rewrite andb_true_r in Hrest.
      cbn [std_sort sort_insert bind].
      rewrite index_less_undefined; [reflexivity|]. now rewrite Hrest.
    + rewrite IH; [reflexivity|cbn [length]; lia|reflexivity].
Qed.

(** [std::sort] with the comparator of the constructor: the sorted
    arrangement when the conversions it makes are defined, undefined
    otherwise. *)
Lemma std_sort_spec (l : list (Z * double)) :
  std_sort l
  = if conversions_defined l then Ok (ordered_sort l) else Fail Undefined.
Proof.
  unfold conversions_defined.
  destruct (forallb (fun entry => fits_int (snd entry)) l) eqn:Hfit.
  - rewrite orb_true_r. now apply std_sort_defined.
  - rewrite orb_false_r.
    destruct l as [|x [|y l]]; [reflexivity|reflexivity|].
    change (length (x :: y :: l) <=? 1)%nat with false.
    apply std_sort_undefined; [cbn [length]; lia|exact Hfit].
Qed.

Lemma make_spec (size : Z) (values : list (Z * double)) :
  SparseCV.make size values
  = if conversions_defined (filter SparseCV.nonzero values)
    then ordered_make size values else Fail Undefined.
Proof.
  unfold SparseCV.make, ordered_make, SparseCV.make_with.
  set (kept := filter SparseCV.nonzero values).
  destruct (0 <? vsize kept) eqn:Hpos.
  - rewrite std_sort_spec.
    destruct (conversions_defined kept); reflexivity.
  - destruct kept as [|e k]; [reflexivity|].
    assert (Hne : e :: k <> []) by discriminate.
    apply vsize_pos_iff in Hne. congruence.
Qed.

Lemma conversions_defined_filter (f : Z * double -> bool)
  (values : list (Z * double)) :
  Forall (fun entry => fits_int (snd entry) = true) values ->
  conversions_defined (filter f values) = true.
Proof.
  intros Hfit. unfold conversions_defined. apply orb_true_iff. right.
  apply forallb_forall. intros e He. apply filter_In in He.
  rewrite Forall_forall in Hfit. now apply Hfit.
Qed.

(** C9, as amended.  The constructor drops the zero-valued entries first and
    looks for duplicates among the entries it keeps.  For entries whose
    values convert to [int], which is what the comparator of the sort does
    with them, it throws iff two nonzero-valued entries share an index.
    Otherwise it stores exactly the nonzero-valued entries, strictly
    increasing in the order of the comparator (the index read as an [int]),
    which is the order of the indices when they are below [2^31]; [isZero()]
    holds exactly when nothing is stored, and, when the indices are below
    [size], exactly when the logical pattern is zero everywhere. *)
Theorem sparse_make_normalizes (size : Z) (values : list (Z * double)) :
  Forall is_uint32 values ->
  Forall (fun entry => fits_int (snd entry) = true) values ->
  (~ NoDup (map fst (filter SparseCV.nonzero values)) ->
   SparseCV.make size values = Fail duplicate_indices)
  /\ (NoDup (map fst (filter SparseCV.nonzero values)) ->
      exists stored : list (Z * double),
        SparseCV.make size values = Ok (mkSparse size stored)
        /\ Permutation stored (filter SparseCV.nonzero values)
        /\ StronglySorted int_index_lt stored
        /\ (Forall (fun e => fst e < 2 ^ 31) values ->
            StronglySorted index_lt stored)
        /\ (SparseCV.isZero (mkSparse size stored) = true <-> stored = [])
        /\ (Forall (fun e => fst e < size) values ->
            (SparseCV.isZero (mkSparse size stored) = true
             <-> forall i : Z, 0 <= i < size ->
                   double_eq (spec_sparse_entry (mkSparse size stored) i)
                     0%float = true))).
Proof.
  intros Hu32 Hfit.
  rewrite make_spec, (conversions_defined_filter _ _ Hfit).
  now apply ordered_make_normalizes.
Qed.

Lemma sparse_make_normalizes_witness :
  Forall is_uint32 sample_entries
  /\ NoDup (map fst (filter SparseCV.nonzero sample_entries))
  /\ exists stored : list (Z * double),
       SparseCV.make 4 sample_entries = Ok (mkSparse 4 stored)
       /\ Permutation stored (filter SparseCV.nonzero sample_entries)
       /\ StronglySorted int_index_lt stored
       /\ StronglySorted index_lt stored.
Proof.
  assert (Hu : Forall is_uint32 sample_entries).
  { repeat constructor; unfold is_uint32, uint32_modulus; simpl; lia. }
  assert (Hnd : NoDup (map fst (filter SparseCV.nonzero sample_entries))).
  { vm_compute. repeat constructor; simpl; intuition discriminate. }
  assert (Hfit : Forall (fun entry => fits_int (snd entry) = true)
                   sample_entries) by (repeat constructor).
  split; [exact Hu|]. split; [exact Hnd|].
  destruct (sparse_make_normalizes 4 sample_entries Hu Hfit) as [_ Hok].
  destruct (Hok Hnd) as [stored [Hmake [Hperm [Hint [Hidx _]]]]].
  exists stored. repeat split; try assumption.
  apply Hidx. repeat constructor; simpl; lia.
Defined.

(** C9, as stated, fails: the entries [(1,0), (1,5)] list the index 1 twice
    and the constructor accepts them, because the zero-valued entry is dropped
    before the duplicates are looked for. *)
Lemma sparse_make_accepts_repeated_index :
  ~ ((exists e : failure, SparseCV.make 4 repeated_index_entries = Fail e)
     <-> ~ NoDup (map fst repeated_index_entries)).
Proof.
  intros [_ Hback].
  destruct Hback as [e He].
  - intros Hnd. inversion Hnd as [|? ? Hnotin _]; subst.
    apply Hnotin. now left.
  - vm_compute in He. discriminate He.
Qed.

(** * Further properties of the code *)

(** ** The comparison of [double]s

    [==] on [double] is the IEEE comparison: it identifies the two zeros,
    rejects NaN and otherwise holds between a value and itself only. *)

Lemma SFeqb_true_cases (f1 f2 : spec_float) :
  SFeqb f1 f2 = true ->
  (exists s1 s2, f1 = S754_zero s1 /\ f2 = S754_zero s2) \/ f1 = f2.
Proof.
  unfold SFeqb, SFcompare.
  destruct f1 as [s1|s1| |s1 m1 e1], f2 as [s2|s2| |s2 m2 e2];
    try discriminate;
    try (destruct s1; discriminate); try (destruct s2; discriminate).
  - intros _. left. now exists s1, s2.
  - destruct s1, s2; try discriminate; intros _; now right.
  - destruct s1, s2; try discriminate;
      destruct (Z.compare_spec e1 e2) as [He|He|He]; try discriminate;
      intros Hm; right; subst e2; f_equal.
    + destruct (Pos.compare_cont Eq m1 m2) eqn:E; try discriminate Hm.
      now apply Pos.compare_eq in E.
    + destruct (Pos.compare_cont Eq m1 m2) eqn:E; try discriminate Hm.
      now apply Pos.compare_eq in E.
Qed.

Lemma Prim2SF_zero : Prim2SF 0%float = S754_zero false.
Proof. reflexivity. Qed.

Lemma double_eq_cases (v w : double) :
  double_eq v w = true ->
  (double_eq v 0%float = true /\ double_eq w 0%float = true) \/ v = w.
Proof.
  unfold double_eq. rewrite !eqb_spec. intros H.
  destruct (SFeqb_true_cases _ _ H) as [[s1 [s2 [H1 H2]]]|E].
  - left. rewrite H1, H2, Prim2SF_zero. now split.
  - right. now apply Prim2SF_inj.
Qed.

Lemma double_eq_sym (v w : double) : double_eq v w = double_eq w v.
Proof.
  unfold double_eq. rewrite !eqb_spec.
  unfold SFeqb, SFcompare.
  destruct (Prim2SF v) as [s1|s1| |s1 m1 e1], (Prim2SF w) as [s2|s2| |s2 m2 e2];
    try reflexivity; try (destruct s1; reflexivity);
    try (destruct s2; reflexivity); try (destruct s1, s2; reflexivity).
  destruct s1, s2; try reflexivity;
    rewrite (Z.compare_antisym e1 e2);
    destruct (e1 ?= e2); cbn [CompOpp]; try reflexivity;
    change (Pos.compare_cont Eq m2 m1) with (Pos.compare m2 m1);
    change (Pos.compare_cont Eq m1 m2) with (Pos.compare m1 m2);
    rewrite (Pos.compare_antisym m1 m2);
    destruct (Pos.compare m1 m2); reflexivity.
Qed.

(** Two values that compare equal are zero together. *)
Lemma double_eq_zero_iff (v w : double) :
  double_eq v w = true -> double_eq v 0%float = double_eq w 0%float.
Proof.
  intros H. destruct (double_eq_cases v w H) as [[Hv Hw]|E].
  - now rewrite Hv, Hw.
  - now rewrite E.
Qed.

(** ** Equality of constant values, continued *)

Lemma vector_eq_sym (a b : list double) : vector_eq a b = vector_eq b a.
Proof.
  revert b. induction a as [|x a IH]; intros [|y b]; simpl; try reflexivity.
  now rewrite IH, double_eq_sym.
Qed.

Lemma pair_ne_sym (a b : Z * double) : SparseCV.pair_ne a b = SparseCV.pair_ne b a.
Proof.
  unfold SparseCV.pair_ne. now rewrite Z.eqb_sym, double_eq_sym.
Qed.

Lemma entries_eq_sym (a b : list (Z * double)) :
  length a = length b -> SparseCV.entries_eq a b = SparseCV.entries_eq b a.
Proof.
  revert b. induction a as [|x a IH]; intros [|y b] Hlen; simpl in *;
    try reflexivity; try discriminate Hlen.
  rewrite pair_ne_sym, IH by now injection Hlen. reflexivity.
Qed.

Lemma ConstantValue_eq_sym (a b : ConstantValue) :
  ConstantValue_eq a b = ConstantValue_eq b a.
Proof.
  destruct a as [d1|s1], b as [d2|s2]; cbn [ConstantValue_eq eq_with_dense
    eq_with_sparse SparseCV.eq_dense]; try reflexivity.
  - f_equal. unfold DenseCV.eq_dense. now rewrite Z.eqb_sym, vector_eq_sym.
  - f_equal. unfold SparseCV.eq_sparse.
    rewrite (Z.eqb_sym (sparse_size s2)), (Z.eqb_sym (vsize (sparse_values s2))).
    destruct (sparse_size s1 =? sparse_size s2); cbn [negb orb]; [|reflexivity].
    destruct (Z.eqb_spec (vsize (sparse_values s1)) (vsize (sparse_values s2)))
      as [Hlen|Hlen]; cbn [negb]; [|reflexivity].
    apply entries_eq_sym. unfold vsize in Hlen. lia.
Qed.

(** [operator==] on constant values is symmetric, whatever the variants of
    the two sides: the double dispatch reaches the same member function with
    the same roles, and each of the three member functions is symmetric. *)
Theorem ConstantValue_eq_symmetric (a b : ConstantValue) :
  ConstantValue_eq a b = ConstantValue_eq b a.
Proof. apply ConstantValue_eq_sym. Qed.

(** The loop of the Dense/Sparse comparison on a buffer that is not empty. *)
Lemma entries_match_spec (values : list double) (entries : list (Z * double)) :
  0 < vsize values ->
  exists b : bool,
    DenseCV.entries_match values entries = Ok b
    /\ (b = true <->
        Forall (fun entry =>
                  double_eq
                    (nth (Z.to_nat (fst entry mod vsize values)) values 0%float)
                    (snd entry) = true) entries).
Proof.
  intros Hlen. induction entries as [|entry rest IH].
  - exists true. split; [reflexivity|]. split; [constructor|reflexivity].
  - cbn [DenseCV.entries_match]. unfold size_t_rem, vector_index.
    replace (vsize values =? 0) with false by (symmetry; apply Z.eqb_neq; lia).
    cbn [bind].
    pose proof (Z.mod_pos_bound (fst entry) (vsize values) Hlen) as Hb.
    replace (0 <=? fst entry mod vsize values) with true
      by (symmetry; apply Z.leb_le; lia).
    replace (fst entry mod vsize values <? vsize values) with true
      by (symmetry; apply Z.ltb_lt; lia).
    cbn [andb].
    destruct (nth_error values (Z.to_nat (fst entry mod vsize values)))
      as [v|] eqn:Hnth.
    + cbn [bind]. unfold double_ne.
      assert (Hv : nth (Z.to_nat (fst entry mod vsize values)) values 0%float = v)
        by now apply nth_error_nth.
      destruct (PrimFloat.eqb v (snd entry)) eqn:E; cbn [negb].
      * destruct IH as [b [Hb1 Hb2]]. exists b. split; [exact Hb1|].
        rewrite Hb2. split.
        -- intros Hall. constructor; [|exact Hall].
           rewrite Hv. exact E.
        -- intros Hall. now apply Forall_inv_tail in Hall.
      * exists false. split; [reflexivity|]. split; [discriminate|].
        intros Hall. apply Forall_inv in Hall.
        rewrite Hv in Hall. unfold double_eq in Hall. congruence.
    + exfalso. apply nth_error_None in Hnth. unfold vsize in *. lia.
Qed.

(** On a Dense value whose buffer is not empty the comparison with a
    Sparse value never leaves the buffer: it returns, and it returns [true]
    exactly when the two sizes are equal and every listed entry compares
    equal to the buffer read at its index modulo the buffer length.  The
    positions that the Sparse value does not list are not looked at. *)
Theorem dense_eq_sparse_spec (d : DenseConstantValue) (s : SparseConstantValue) :
  0 < vsize (dense_values d) ->
  exists b : bool,
    DenseCV.eq_sparse d s = Ok b
    /\ (b = true <->
        dense_size d = sparse_size s
        /\ Forall (fun entry =>
                     double_eq
                       (nth (Z.to_nat (fst entry mod vsize (dense_values d)))
                          (dense_values d) 0%float)
                       (snd entry) = true) (sparse_values s)).
Proof.
  intros Hlen. unfold DenseCV.eq_sparse.
  destruct (Z.eqb_spec (dense_size d) (sparse_size s)) as [Hsize|Hsize];
    cbn [negb].
  - destruct (entries_match_spec (dense_values d) (sparse_values s) Hlen)
      as [b [Hb1 Hb2]].
    exists b. split; [exact Hb1|]. rewrite Hb2. tauto.
  - exists false. split; [reflexivity|]. split; [discriminate|].
    intros [Heq _]. contradiction.
Qed.

Lemma dense_eq_sparse_spec_witness :
  0 < vsize (dense_values dense_1500)
  /\ DenseCV.eq_sparse dense_1500 sparse_1_5 = Ok true.
Proof.
  split; [reflexivity|].
  destruct (dense_eq_sparse_spec dense_1500 sparse_1_5 eq_refl)
    as [b [Hb1 Hb2]].
  rewrite Hb1. f_equal. apply Hb2. split; [reflexivity|].
  repeat constructor.
Defined.

(** On values without zero entries, which is what the constructor stores, two
    Sparse values compare equal only if they are the same value: same [size],
    same entries.  (The converse fails on NaN, which is not equal to
    itself.) *)
Lemma entries_eq_identity (a b : list (Z * double)) :
  length a = length b ->
  Forall (fun entry => SparseCV.nonzero entry = true) a ->
  SparseCV.entries_eq a b = true -> a = b.
Proof.
  revert b. induction a as [|x a IH]; intros [|y b] Hlen Hnz Heq;
    try discriminate Hlen; [reflexivity|].
  cbn [SparseCV.entries_eq] in Heq.
  destruct (SparseCV.pair_ne x y) eqn:Hne; [discriminate Heq|].
  unfold SparseCV.pair_ne in Hne. apply negb_false_iff, andb_prop in Hne.
  destruct Hne as [Hfst Hsnd]. apply Z.eqb_eq in Hfst.
  inversion Hnz as [|? ? Hx Ha]; subst.
  assert (Hval : snd x = snd y).
  { destruct (double_eq_cases _ _ Hsnd) as [[Hzero _]|E]; [|exact E].
    unfold SparseCV.nonzero, double_ne in Hx. unfold double_eq in Hzero.
    rewrite Hzero in Hx. discriminate Hx. }
  f_equal.
  - destruct x, y. simpl in *. congruence.
  - apply IH; [now injection Hlen|exact Ha|exact Heq].
Qed.

Theorem sparse_eq_is_identity (s1 s2 : SparseConstantValue) :
  stores_nonzero s1 ->
  SparseCV.eq_sparse s1 s2 = true ->
  s1 = s2.
Proof.
  intros Hnz. unfold SparseCV.eq_sparse.
  destruct (Z.eqb_spec (sparse_size s1) (sparse_size s2)) as [Hsize|];
    cbn [negb orb]; [|discriminate].
  destruct (Z.eqb_spec (vsize (sparse_values s1)) (vsize (sparse_values s2)))
    as [Hlen|]; cbn [negb]; [|discriminate].
  intros Heq. apply entries_eq_identity in Heq;
    [|unfold vsize in Hlen; lia|exact Hnz].
  destruct s1, s2. simpl in *. congruence.
Qed.

Lemma sparse_eq_is_identity_witness :
  stores_nonzero sparse_1_5
  /\ SparseCV.eq_sparse sparse_1_5 (mkSparse 4 [(1, 5%float)]) = true
  /\ sparse_1_5 = mkSparse 4 [(1, 5%float)].
Proof.
  assert (Hnz : stores_nonzero sparse_1_5) by (repeat constructor).
  split; [exact Hnz|]. split; [reflexivity|].
  apply (sparse_eq_is_identity sparse_1_5 (mkSparse 4 [(1, 5%float)]) Hnz).
  reflexivity.
Defined.

(** ** Hashing of constant values, continued *)

Lemma vector_eq_pointwise (a b : list double) :
  vector_eq a b = true ->
  length a = length b
  /\ forall (n : nat) (v w : double),
       nth_error a n = Some v -> nth_error b n = Some w ->
       double_eq v w = true.
Proof.
  revert b. induction a as [|x a IH]; intros [|y b] Heq; simpl in Heq;
    try discriminate Heq.
  - split; [reflexivity|]. intros [|n] v w Hv; discriminate Hv.
  - apply andb_prop in Heq. destruct Heq as [Hxy Hab].
    destruct (IH b Hab) as [Hlen Hnth]. split; [simpl; congruence|].
    intros [|n] v w Hv Hw; simpl in Hv, Hw.
    + congruence.
    + now apply (Hnth n).
Qed.

Lemma vector_eq_index (a b : list double) (i : Z) :
  vector_eq a b = true ->
  (vector_index a i = Fail Undefined /\ vector_index b i = Fail Undefined)
  \/ exists v w : double,
       vector_index a i = Ok v /\ vector_index b i = Ok w
       /\ double_eq v w = true.
Proof.
  intros Heq. destruct (vector_eq_pointwise a b Heq) as [Hlen Hnth].
  unfold vector_index, vsize. rewrite <- Hlen.
  destruct ((0 <=? i) && (i <? Z.of_nat (length a))) eqn:Hin; [|now left].
  destruct (nth_error a (Z.to_nat i)) as [v|] eqn:Hv;
    destruct (nth_error b (Z.to_nat i)) as [w|] eqn:Hw.
  - right. exists v, w. repeat split. now apply (Hnth (Z.to_nat i)).
  - apply nth_error_None in Hw.
    assert (Hsome : nth_error a (Z.to_nat i) <> None) by congruence.
    apply nth_error_Some in Hsome. lia.
  - apply nth_error_None in Hv.
    assert (Hsome : nth_error b (Z.to_nat i) <> None) by congruence.
    apply nth_error_Some in Hsome. lia.
  - now left.
Qed.

Lemma dense_hash_loop_congr (H : StdHash) (a b : list double) (n : nat) :
  vector_eq a b = true ->
  forall i hash zero_count : Z,
    DenseCV.hash_loop H a n i hash zero_count
    = DenseCV.hash_loop H b n i hash zero_count.
Proof.
  intros Heq. induction n as [|n IH]; intros i hash zero_count;
    [reflexivity|].
  cbn [DenseCV.hash_loop].
  destruct (vector_eq_index a b i Heq) as [[Ha Hb]|[v [w [Ha [Hb Hvw]]]]];
    rewrite Ha, Hb; cbn [bind]; [reflexivity|].
  rewrite <- (double_eq_zero_iff v w Hvw).
  destruct (double_eq v 0%float) eqn:Hz; [apply IH|].
  destruct (double_eq_cases v w Hvw) as [[Hzero _]|E]; [congruence|].
  subst w. apply IH.
Qed.

(** Two Dense values that compare equal hash alike, whatever the hashers:
    [hash()] gives the same hash for both, or reads past the end of both
    buffers. *)
Theorem dense_eq_implies_same_hash (H : StdHash) (d1 d2 : DenseConstantValue) :
  DenseCV.eq_dense d1 d2 = true ->
  DenseCV.hash H d1 = DenseCV.hash H d2.
Proof.
  unfold DenseCV.eq_dense, DenseCV.hash. intros Heq.
  apply andb_prop in Heq. destruct Heq as [Hsize Hvalues].
  apply Z.eqb_eq in Hsize. rewrite <- Hsize.
  now rewrite (dense_hash_loop_congr H _ _ _ Hvalues).
Qed.

Lemma dense_eq_implies_same_hash_witness :
  DenseCV.eq_dense (mkDense 2 [0%float; 5%float])
    (mkDense 2 [(-0)%float; 5%float]) = true
  /\ DenseCV.hash sample_hash (mkDense 2 [0%float; 5%float])
     = DenseCV.hash sample_hash (mkDense 2 [(-0)%float; 5%float]).
Proof.
  split; [reflexivity|].
  apply (dense_eq_implies_same_hash sample_hash (mkDense 2 [0%float; 5%float])
           (mkDense 2 [(-0)%float; 5%float])).
  reflexivity.
Defined.

Lemma all_zero_In (values : list double) (v : double) :
  DenseCV.all_zero values = true -> In v values -> double_eq v 0%float = true.
Proof.
  induction values as [|x values IH]; intros Hall Hin; [contradiction|].
  cbn [DenseCV.all_zero] in Hall. unfold double_ne in Hall.
  destruct (PrimFloat.eqb x 0%float) eqn:Hx; cbn [negb] in Hall;
    [|discriminate Hall].
  destruct Hin as [->|Hin]; [exact Hx|now apply IH].
Qed.

Lemma dense_hash_loop_zero (H : StdHash) (values : list double) (n : nat) :
  DenseCV.all_zero values = true ->
  forall i hash zero_count : Z,
    0 <= i -> i + Z.of_nat n <= vsize values ->
    0 <= zero_count -> zero_count + Z.of_nat n < size_t_modulus ->
    DenseCV.hash_loop H values n i hash zero_count
    = Ok (hash, zero_count + Z.of_nat n).
Proof.
  intros Hall. induction n as [|n IH]; intros i hash zero_count Hi Hn Hz Hm.
  - cbn [DenseCV.hash_loop]. f_equal. f_equal. lia.
  - cbn [DenseCV.hash_loop]. unfold vector_index.
    replace (0 <=? i) with true by (symmetry; apply Z.leb_le; lia).
    replace (i <? vsize values) with true by (symmetry; apply Z.ltb_lt; lia).
    cbn [andb].
    destruct (nth_error values (Z.to_nat i)) as [v|] eqn:Hv.
    + cbn [bind]. apply nth_error_In in Hv.
      rewrite (all_zero_In values v Hall Hv).
      rewrite to_size_t_small by lia.
      rewrite IH by lia. f_equal. f_equal. lia.
    + exfalso. apply nth_error_None in Hv. unfold vsize in *. lia.
Qed.

(** The two representations of the zero pattern do hash alike: a Dense value
    that stores [size] zeros and the Sparse value of the same [size] without
    entries have the same hash, whatever the hashers. *)
Theorem zero_hash_across_representations
  (H : StdHash) (d : DenseConstantValue) :
  DenseCV.isZero d = true ->
  vsize (dense_values d) = dense_size d ->
  dense_size d < size_t_modulus ->
  DenseCV.hash H d = Ok (SparseCV.hash H (mkSparse (dense_size d) [])).
Proof.
  intros Hzero Hlen Hsize. unfold DenseCV.hash, SparseCV.hash.
  assert (Hnn : 0 <= dense_size d) by (rewrite <- Hlen; unfold vsize; lia).
  rewrite (dense_hash_loop_zero H _ _ Hzero) by (rewrite ?Z2Nat.id; lia).
  cbn [bind SparseCV.hash_loop sparse_values sparse_size].
  rewrite Z2Nat.id, Z.sub_0_r, Z.add_0_l, to_size_t_small by lia.
  now destruct (0 <? dense_size d).
Qed.

Lemma zero_hash_across_representations_witness :
  DenseCV.hash sample_hash (mkDense 4 [0%float; (-0)%float; 0%float; 0%float])
  = Ok (SparseCV.hash sample_hash (mkSparse 4 [])).
Proof.
  apply (zero_hash_across_representations sample_hash
           (mkDense 4 [0%float; (-0)%float; 0%float; 0%float]));
    reflexivity.
Defined.

(** From one starting hash, [hash_combine] sends two hash codes to the same
    hash exactly when they are the same [std::size_t]: combining never merges
    two different codes. *)
Theorem hash_combine_separates_codes (h a b : Z) :
  hash_combine h a = hash_combine h b <-> to_size_t a = to_size_t b.
Proof.
  split; [apply hash_combine_inj|].
  unfold hash_combine, to_size_t. intros Heq. f_equal.
  rewrite <- !Z.add_assoc.
  rewrite (Z.add_mod a), (Z.add_mod b) by (unfold size_t_modulus; lia).
  now rewrite Heq.
Qed.

(** ** Validation and expansion, continued *)

(** [validateSlots] accepts exactly the slot counts [k * size] with [k >= 1];
    it throws [std::runtime_error] on every other one; and for a constant of
    size 0 it divides by zero. *)
Theorem validateSlots_outcome (size slots : Z) :
  0 <= size -> 0 <= slots ->
  (size = 0 -> validateSlots size slots = Fail Undefined)
  /\ (0 < size ->
      (validateSlots size slots = Ok tt
       <-> exists k : Z, 1 <= k /\ slots = k * size)
      /\ (validateSlots size slots = Ok tt
          \/ exists what, validateSlots size slots = Fail (RuntimeError what))).
Proof.
  intros Hsize Hslots. split.
  - intros ->. unfold validateSlots, size_t_rem.
    replace (slots <? 0) with false by (symmetry; apply Z.ltb_ge; lia).
    reflexivity.
  - intros Hpos. split.
    + rewrite (validateSlots_Ok_iff size slots Hpos). split.
      * intros [Hge Hmod]. apply Z.mod_divide in Hmod; [|lia].
        destruct Hmod as [k Hk]. exists k. split; [nia|exact Hk].
      * intros [k [Hk ->]]. split; [nia|]. apply Z.mod_mul. lia.
    + destruct (Z_le_gt_dec size slots) as [Hge|Hlt].
      * destruct (Z.eq_dec (slots mod size) 0) as [Hmod|Hmod].
        -- left. apply validateSlots_Ok_iff; [exact Hpos|now split].
        -- right. apply validateSlots_Fail; [exact Hpos|].
           intros [_ Hz]. contradiction.
      * right. apply validateSlots_Fail; [exact Hpos|]. intros [Hge _]. lia.
Qed.

Lemma validateSlots_outcome_witness :
  validateSlots 0 8 = Fail Undefined
  /\ (validateSlots 4 8 = Ok tt <-> exists k : Z, 1 <= k /\ 8 = k * 4).
Proof.
  assert (H0 : 0 <= 0) by lia. assert (H4 : 0 <= 4) by lia.
  assert (H8 : 0 <= 8) by lia.
  split.
  - apply (proj1 (validateSlots_outcome 0 8 H0 H8)). reflexivity.
  - apply (proj2 (validateSlots_outcome 4 8 H4 H8)). reflexivity.
Defined.


(** Up to [max_size()] slots the two Dense expansions agree: returning the
    stored buffer without a copy, which [expand] does when the buffer already
    has [slots] entries, is not observable in the result.  Above it they part:
    [expandTo] throws [std::length_error] from [reserve] as soon as the slot
    count is valid, whatever [expand] does. *)
Theorem dense_expand_agrees_with_expandTo (d : DenseConstantValue) (slots : Z) :
  0 <= dense_size d ->
  (slots <= vector_max_size ->
   DenseCV.expand d slots = DenseCV.expandTo d slots)
  /\ (vector_max_size < slots ->
      validateSlots (dense_size d) slots = Ok tt ->
      DenseCV.expandTo d slots = Fail LengthError).
Proof.
  intros Hsize. unfold DenseCV.expand, DenseCV.expandTo, vector_reserve.
  split.
  - intros Hmax.
    replace (vector_max_size <? slots) with false
      by (symmetry; apply Z.ltb_ge; lia).
    destruct (validateSlots (dense_size d) slots) as [[]|e] eqn:Hvalid;
      cbn [bind]; [|reflexivity].
    destruct (Z.eqb_spec (vsize (dense_values d)) slots) as [Hsame|Hdiff];
      [|reflexivity].
    assert (Hpos : 0 < dense_size d).
    { destruct (Z.eq_dec (dense_size d) 0) as [Hz|Hz]; [|lia].
      exfalso. rewrite Hz in Hvalid.
      unfold validateSlots, size_t_rem in Hvalid.
      destruct (slots <? 0); discriminate Hvalid. }
    apply validateSlots_Ok_iff in Hvalid; [|exact Hpos].
    unfold size_t_div.
    replace (vsize (dense_values d) =? 0) with false
      by (symmetry; apply Z.eqb_neq; lia).
    cbn [bind]. rewrite Hsame, Z.div_same by lia.
    change (Z.to_nat (to_int 1)) with 1%nat.
    reflexivity.
  - intros Hmax Hvalid. rewrite Hvalid. cbn [bind].
    replace (vector_max_size <? slots) with true
      by (symmetry; apply Z.ltb_lt; lia).
    reflexivity.
Qed.

Lemma dense_expand_agrees_with_expandTo_witness :
  DenseCV.expand dense_1212 4 = DenseCV.expandTo dense_1212 4.
Proof.
  assert (Hsize : 0 <= dense_size dense_1212) by discriminate.
  apply (proj1 (dense_expand_agrees_with_expandTo dense_1212 4 Hsize)).
  discriminate.
Defined.

Lemma all_zero_app (a b : list double) :
  DenseCV.all_zero (a ++ b) = DenseCV.all_zero a && DenseCV.all_zero b.
Proof.
  induction a as [|x a IH]; [reflexivity|].
  cbn [app DenseCV.all_zero]. now destruct (double_ne x 0%float).
Qed.

Lemma all_zero_tiled (values : list double) (r : nat) :
  DenseCV.all_zero (concat (repeat values (S r))) = DenseCV.all_zero values.
Proof.
  induction r as [|r IH].
  - cbn [repeat concat]. now rewrite app_nil_r.
  - change (repeat values (S (S r))) with (values :: repeat values (S r)).
    cbn [concat]. rewrite all_zero_app, IH. apply andb_diag.
Qed.

Lemma all_zero_iff (values : list double) :
  DenseCV.all_zero values = true
  <-> Forall (fun value => double_eq value 0%float = true) values.
Proof.
  induction values as [|x values IH]; cbn [DenseCV.all_zero].
  - split; [constructor|reflexivity].
  - unfold double_ne, double_eq in *.
    destruct (PrimFloat.eqb x 0%float) eqn:Hx; cbn [negb].
    + rewrite IH. split.
      * intros Hall. now constructor.
      * intros Hall. now apply Forall_inv_tail in Hall.
    + split; [discriminate|].
      intros Hall. apply Forall_inv in Hall. congruence.
Qed.

(** The zero test agrees with the expansion: whenever a Dense value expands
    to a vector that is not empty, [isZero()] holds exactly when every entry
    of the vector compares equal to zero. *)
Theorem dense_isZero_agrees_with_expand
  (d : DenseConstantValue) (slots : Z) (out : list double) :
  DenseCV.expand d slots = Ok out ->
  out <> [] ->
  (DenseCV.isZero d = true
   <-> Forall (fun value => double_eq value 0%float = true) out).
Proof.
  unfold DenseCV.expand, DenseCV.isZero. intros Hexp Hout.
  rewrite <- all_zero_iff.
  destruct (validateSlots (dense_size d) slots) as [[]|e];
    cbn [bind] in Hexp; [|discriminate Hexp].
  destruct (vsize (dense_values d) =? slots).
  - injection Hexp as <-. reflexivity.
  - destruct (size_t_div slots (vsize (dense_values d))) as [q|e];
      cbn [bind] in Hexp; [|discriminate Hexp].
    injection Hexp as <-. rewrite insert_times_concat in *. cbn [app] in *.
    destruct (Z.to_nat (to_int q)) as [|r]; [now contradiction Hout|].
    now rewrite all_zero_tiled.
Qed.

Lemma dense_isZero_agrees_with_expand_witness :
  DenseCV.isZero (mkDense 2 [0%float; (-0)%float]) = true
  <-> Forall (fun value => double_eq value 0%float = true)
        [0%float; (-0)%float; 0%float; (-0)%float].
Proof.
  apply (dense_isZero_agrees_with_expand
           (mkDense 2 [0%float; (-0)%float]) 4);
    [reflexivity|discriminate].
Defined.

Lemma list_put_length {A : Type} (l : list A) (n : nat) (x : A) :
  length (list_put l n x) = length l.
Proof.
  revert n. induction l as [|y l IH]; intros [|n]; simpl; congruence.
Qed.

Lemma firstn_list_put {A : Type} (l : list A) (n : nat) (x : A) :
  (n < length l)%nat ->
  firstn (S n) (list_put l n x) = firstn n l ++ [x].
Proof.
  revert n. induction l as [|y l IH]; intros [|n] Hn; simpl in *; try lia.
  - reflexivity.
  - f_equal. apply IH. lia.
Qed.

(** With one stored entry the inner loop advances by one slot.  An entry at
    a position [p >= 1] is written at [p], [p + 1], ... until the write at
    position [slots] throws. *)
Lemma fill_entry_overruns (slots p : Z) (v : double) (k : nat) :
  forall (fuel : nat) (i : Z) (scratch : list double),
    1 <= p -> slots < 2 ^ 31 -> 0 <= i ->
    vsize scratch = slots -> Z.of_nat k = slots - p - i -> (k < fuel)%nat ->
    SparseCV.fill_entry fuel slots 1 (p, v) i scratch = Fail OutOfRange.
Proof.
  induction k as [|k IH]; intros fuel i scratch Hp Hslots Hi Hlen Hk Hfuel;
    (destruct fuel as [|fuel]; [lia|]);
    cbn [SparseCV.fill_entry fst snd];
    rewrite (to_size_t_small i) by (unfold size_t_modulus; lia);
    (replace (i <? slots) with true by (symmetry; apply Z.ltb_lt; lia));
    unfold vector_at_put, to_uint32;
    rewrite (Z.mod_small (p + i)) by (unfold uint32_modulus; lia);
    (replace (0 <=? p + i) with true by (symmetry; apply Z.leb_le; lia)).
  - replace (p + i <? vsize scratch) with false
      by (symmetry; apply Z.ltb_ge; lia).
    reflexivity.
  - replace (p + i <? vsize scratch) with true
      by (symmetry; apply Z.ltb_lt; lia).
    cbn [andb bind]. rewrite to_int_small by lia.
    apply IH; try lia.
    unfold vsize in *. rewrite list_put_length. exact Hlen.
Qed.

(** An entry at position 0 is written at every slot. *)
Lemma fill_entry_floods (slots : Z) (v : double) (k : nat) :
  forall (fuel : nat) (i : Z) (scratch : list double),
    slots < 2 ^ 31 -> 0 <= i ->
    vsize scratch = slots -> Z.of_nat k = slots - i -> (k < fuel)%nat ->
    SparseCV.fill_entry fuel slots 1 (0, v) i scratch
    = Ok (firstn (Z.to_nat i) scratch ++ repeat v k).
Proof.
  induction k as [|k IH]; intros fuel i scratch Hslots Hi Hlen Hk Hfuel;
    (destruct fuel as [|fuel]; [lia|]);
    cbn [SparseCV.fill_entry fst snd];
    rewrite (to_size_t_small i) by (unfold size_t_modulus; lia).
  - replace (i <? slots) with false by (symmetry; apply Z.ltb_ge; lia).
    cbn [repeat]. rewrite app_nil_r, firstn_all2; [reflexivity|].
    unfold vsize in Hlen. lia.
  - replace (i <? slots) with true by (symmetry; apply Z.ltb_lt; lia).
    unfold vector_at_put, to_uint32. rewrite Z.add_0_l.
    rewrite (Z.mod_small i) by (unfold uint32_modulus; lia).
    replace (0 <=? i) with true by (symmetry; apply Z.leb_le; lia).
    replace (i <? vsize scratch) with true by (symmetry; apply Z.ltb_lt; lia).
    cbn [andb bind]. rewrite to_int_small by lia.
    rewrite IH; try lia.
    + f_equal. replace (Z.to_nat (i + 1)) with (S (Z.to_nat i)) by lia.
      rewrite firstn_list_put by (unfold vsize in Hlen; lia).
      rewrite <- app_assoc. reflexivity.
    + unfold vsize in *. rewrite list_put_length. exact Hlen.
Qed.

(** The Sparse expansion of a value with a single entry, for a valid slot
    count below [2^31]: an entry at position 0 fills every slot with its
    value, and an entry at any other position makes the expansion throw
    [std::out_of_range]. *)
Theorem sparse_expand_single_entry (size slots p : Z) (v : double) :
  0 < size ->
  validateSlots size slots = Ok tt ->
  slots < 2 ^ 31 ->
  0 <= p < uint32_modulus ->
  SparseCV.expand (mkSparse size [(p, v)]) slots
  = (if p =? 0 then Ok (repeat v (Z.to_nat slots)) else Fail OutOfRange)
  /\ SparseCV.expandTo (mkSparse size [(p, v)]) slots
     = SparseCV.expand (mkSparse size [(p, v)]) slots.
Proof.
  intros Hsize Hvalid Hslots Hp. split; [|reflexivity].
  unfold SparseCV.expand, vector_resize. cbn [sparse_size sparse_values].
  rewrite Hvalid.
  replace (vector_max_size <? slots) with false
    by (symmetry; apply Z.ltb_ge; unfold vector_max_size; lia).
  cbn [bind SparseCV.fill].
  change (vsize [(p, v)]) with 1.
  apply validateSlots_Ok_iff in Hvalid; [|exact Hsize].
  assert (Hscratch : vsize (repeat 0%float (Z.to_nat slots)) = slots)
    by (unfold vsize; rewrite repeat_length; lia).
  destruct (Z.eqb_spec p 0) as [->|Hp0].
  - rewrite (fill_entry_floods slots v (Z.to_nat slots)); try lia;
      [|exact Hscratch].
    reflexivity.
  - destruct (Z_lt_ge_dec p slots) as [Hlt|Hge].
    + rewrite (fill_entry_overruns slots p v (Z.to_nat (slots - p)));
        try lia; [reflexivity|exact Hscratch].
    + cbn [SparseCV.fill_entry fst snd].
      change (to_size_t 0) with 0.
      replace (0 <? slots) with true by (symmetry; apply Z.ltb_lt; lia).
      unfold vector_at_put, to_uint32. rewrite Z.add_0_r.
      rewrite (Z.mod_small p) by lia. unfold vsize. rewrite repeat_length.
      replace (p <? Z.of_nat (Z.to_nat slots)) with false
        by (symmetry; apply Z.ltb_ge; lia).
      rewrite andb_false_r. reflexivity.
Qed.

Lemma sparse_expand_single_entry_witness :
  SparseCV.expand (mkSparse 4 [(2, 7%float)]) 8 = Fail OutOfRange.
Proof.
  assert (H1 : 0 < 4) by lia.
  assert (H2 : 8 < 2 ^ 31) by lia.
  assert (H3 : 0 <= 2 < uint32_modulus) by (unfold uint32_modulus; lia).
  exact (proj1 (sparse_expand_single_entry 4 8 2 7%float H1 eq_refl H2 H3)).
Defined.

(** A Sparse value for which [isZero()] holds expands, for every valid slot
    count that [resize] accepts, to [slots] zeros; for a valid slot count
    above [max_size()] the expansion throws [std::length_error]. *)
Theorem sparse_zero_expands_to_zeros (s : SparseConstantValue) (slots : Z) :
  SparseCV.isZero s = true ->
  validateSlots (sparse_size s) slots = Ok tt ->
  (slots <= vector_max_size ->
   SparseCV.expand s slots = Ok (repeat 0%float (Z.to_nat slots))
   /\ SparseCV.expandTo s slots = Ok (repeat 0%float (Z.to_nat slots)))
  /\ (vector_max_size < slots ->
      SparseCV.expand s slots = Fail LengthError
      /\ SparseCV.expandTo s slots = Fail LengthError).
Proof.
  unfold SparseCV.isZero, SparseCV.expand, SparseCV.expandTo, vector_resize.
  intros Hzero Hvalid. rewrite Hvalid. cbn [bind].
  assert (Hnil : sparse_values s = []).
  { destruct (sparse_values s) as [|entry rest]; [reflexivity|].
    apply Z.eqb_eq in Hzero. unfold vsize in Hzero. cbn [length] in Hzero.
    lia. }
  rewrite Hnil. split; intros Hslots.
  - replace (vector_max_size <? slots) with false
      by (symmetry; apply Z.ltb_ge; exact Hslots).
    split; reflexivity.
  - replace (vector_max_size <? slots) with true
      by (symmetry; apply Z.ltb_lt; exact Hslots).
    split; reflexivity.
Qed.

Lemma sparse_zero_expands_to_zeros_witness :
  SparseCV.expand (mkSparse 4 []) 8 = Ok (repeat 0%float 8).
Proof.
  assert (H8 : 8 <= vector_max_size) by (unfold vector_max_size; lia).
  exact (proj1 (proj1 (sparse_zero_expands_to_zeros (mkSparse 4 []) 8
                         eq_refl eq_refl) H8)).
Defined.

(** ** The semantic term model, continued *)

Lemma Op_eqb_sym (a b : Op) : Op_eqb a b = Op_eqb b a.
Proof. destruct a, b; reflexivity. Qed.

Lemma same_operands_sym (lhs rhs : list TermPtr) :
  length lhs = length rhs -> same_operands lhs rhs = same_operands rhs lhs.
Proof.
  revert rhs. induction lhs as [|x lhs IH]; intros [|y rhs] Hlen;
    try discriminate Hlen; [reflexivity|].
  cbn [same_operands]. rewrite (Z.eqb_sym y x), IH by now injection Hlen.
  reflexivity.
Qed.

(** [SemanticTermEquality] is symmetric: the order in which the hash set
    hands the key and the stored element to the functor does not matter. *)
Theorem SemanticTermEquality_symmetric (lhs rhs : Term) :
  SemanticTermEquality lhs rhs = SemanticTermEquality rhs lhs.
Proof.
  unfold SemanticTermEquality, numOperands.
  rewrite (Op_eqb_sym (op rhs)).
  destruct (Op_eqb (op lhs) (op rhs)) eqn:Hop; cbn [negb]; [|reflexivity].
  apply Op_eqb_eq in Hop. rewrite <- Hop.
  rewrite (Z.eqb_sym (vsize (operands rhs))).
  destruct (Z.eqb_spec (vsize (operands lhs)) (vsize (operands rhs)))
    as [Hlen|Hlen]; cbn [negb]; [|reflexivity].
  rewrite (same_operands_sym (operands rhs) (operands lhs))
    by (unfold vsize in Hlen; lia).
  destruct (same_operands (operands lhs) (operands rhs)); cbn [negb];
    [|reflexivity].
  destruct (op lhs); try reflexivity; try apply ConstantValue_eq_sym;
    f_equal; try apply Z.eqb_sym.
  now rewrite (Z.eqb_sym (EncodeAtScaleAttribute lhs)),
    (Z.eqb_sym (EncodeAtLevelAttribute lhs)).
Qed.

Lemma equality_true_inv (lhs rhs : Term) :
  SemanticTermEquality lhs rhs = Ok true ->
  op lhs = op rhs /\ operands lhs = operands rhs /\ spec_tie_break lhs rhs.
Proof.
  unfold SemanticTermEquality, spec_tie_break, numOperands.
  destruct (Op_eqb (op lhs) (op rhs)) eqn:Hop; cbn [negb]; [|discriminate].
  apply Op_eqb_eq in Hop.
  destruct (Z.eqb_spec (vsize (operands lhs)) (vsize (operands rhs)))
    as [Hlen|Hlen]; cbn [negb]; [|discriminate].
  destruct (same_operands (operands lhs) (operands rhs)) eqn:Hsame;
    cbn [negb]; [|discriminate].
  apply same_operands_eq in Hsame; [|unfold vsize in Hlen; lia].
  intros Heq. split; [exact Hop|]. split; [exact Hsame|].
  destruct (op lhs); try discriminate Heq; try exact I; try exact Heq;
    injection Heq as Heq;
    repeat match goal with
           | E : (_ && _)%bool = true |- _ => apply andb_prop in E; destruct E
           | E : (_ =? _) = true |- _ => apply Z.eqb_eq in E
           end;
    try split; assumption.
Qed.

Lemma equality_true_intro (lhs rhs : Term) :
  op lhs = op rhs -> operands lhs = operands rhs -> spec_tie_break lhs rhs ->
  SemanticTermEquality lhs rhs = Ok true.
Proof.
  unfold SemanticTermEquality, spec_tie_break, numOperands.
  intros Hop Hops. rewrite <- Hop, <- Hops.
  rewrite Op_eqb_refl, Z.eqb_refl, same_operands_refl. cbn [negb].
  destruct (op lhs); intros Htie; try contradiction; try reflexivity;
    try exact Htie; f_equal;
    repeat match goal with
           | E : _ /\ _ |- _ => destruct E
           end;
    try apply andb_true_intro; try split; now apply Z.eqb_eq.
Qed.

(** [SemanticTermEquality] accepts two terms exactly when they have the same
    kind, the same operand references in the same order, and the tie-break of
    the kind holds; it never accepts a pair of another shape, and never an
    Undef term. *)
Theorem equality_accepts_iff (lhs rhs : Term) :
  SemanticTermEquality lhs rhs = Ok true
  <-> op lhs = op rhs /\ operands lhs = operands rhs /\ spec_tie_break lhs rhs.
Proof.
  split; [apply equality_true_inv|].
  intros [Hop [Hops Htie]]. now apply equality_true_intro.
Qed.

(** On terms that are not constants the equality is a partial equivalence:
    it is transitive, and every term whose kind is neither Undef nor Constant
    is equal to itself. *)
Theorem equality_is_equivalence_off_constants (a b c : Term) :
  op a <> Constant ->
  (SemanticTermEquality a b = Ok true ->
   SemanticTermEquality b c = Ok true ->
   SemanticTermEquality a c = Ok true)
  /\ (op a <> Undef -> SemanticTermEquality a a = Ok true).
Proof.
  intros Hkind. split.
  - intros Hab Hbc.
    apply equality_true_inv in Hab. destruct Hab as [Hop1 [Hops1 Ht1]].
    apply equality_true_inv in Hbc. destruct Hbc as [Hop2 [Hops2 Ht2]].
    apply equality_true_intro; [congruence|congruence|].
    unfold spec_tie_break in *. rewrite <- Hop1 in Ht2.
    destruct (op a); try contradiction; try exact I;
      try congruence.
    destruct Ht1, Ht2. split; congruence.
  - intros Hundef. apply equality_true_intro; try reflexivity.
    unfold spec_tie_break. destruct (op a); try contradiction;
      try exact I; try reflexivity.
    now split.
Qed.

Lemma equality_is_equivalence_off_constants_witness :
  op (sample_heap 2) <> Constant
  /\ SemanticTermEquality (sample_heap 2) (sample_heap 2) = Ok true.
Proof.
  assert (Hkind : op (sample_heap 2) <> Constant) by discriminate.
  split; [exact Hkind|].
  apply (proj2 (equality_is_equivalence_off_constants
                  (sample_heap 2) (sample_heap 2) (sample_heap 2) Hkind)).
  discriminate.
Defined.

(** The term hash is sound wherever the two constants of a pair of Constant
    terms are stored alike: two terms that the equality accepts then have the
    same hash, whatever the hashers.  Terms of every other kind are
    covered. *)
Theorem term_hash_sound_when_stored_alike (H : StdHash) (lhs rhs : Term) :
  (op lhs = Constant ->
   stored_alike (ConstantValueAttribute lhs) (ConstantValueAttribute rhs)) ->
  SemanticTermEquality lhs rhs = Ok true ->
  SemanticTermHash H lhs = SemanticTermHash H rhs.
Proof.
  intros Halike Heq.
  destruct (op lhs) eqn:Hkind;
    try (apply term_hash_sound_except_constant; [congruence|exact Heq]).
  specialize (Halike eq_refl).
  apply equality_true_inv in Heq. destruct Heq as [Hop [Hops Htie]].
  unfold spec_tie_break in Htie. rewrite Hkind in Htie.
  unfold SemanticTermHash. rewrite <- Hop, <- Hops, Hkind.
  destruct (ConstantValueAttribute lhs) as [d1|s1],
           (ConstantValueAttribute rhs) as [d2|s2];
    cbn [stored_alike] in Halike; try contradiction;
    cbn [ConstantValue_eq eq_with_dense eq_with_sparse] in Htie;
    injection Htie as Htie; cbn [ConstantValue_hash].
  - unfold DenseCV.eq_dense in Htie. apply andb_prop in Htie.
    destruct Htie as [Hsize Hvalues]. apply Z.eqb_eq in Hsize.
    unfold DenseCV.hash. rewrite Hsize.
    now rewrite (dense_hash_loop_congr H _ _ _ Hvalues).
  - unfold SparseCV.eq_sparse in Htie.
    destruct (Z.eqb_spec (sparse_size s2) (sparse_size s1)) as [Hsize|];
      cbn [negb orb] in Htie; [|discriminate Htie].
    destruct (Z.eqb_spec (vsize (sparse_values s2)) (vsize (sparse_values s1)))
      as [Hlen|]; cbn [negb] in Htie; [|discriminate Htie].
    apply entries_eq_identity in Htie;
      [|unfold vsize in Hlen; lia|exact Halike].
    destruct s1, s2. simpl in *. now subst.
Qed.

Lemma term_hash_sound_when_stored_alike_witness :
  SemanticTermHash sample_hash (leaf Constant (Dense dense_0500))
  = SemanticTermHash sample_hash
      (leaf Constant
         (Dense (mkDense 4 [(-0)%float; 5%float; 0%float; (-0)%float]))).
Proof.
  apply (term_hash_sound_when_stored_alike sample_hash
           (leaf Constant (Dense dense_0500))
           (leaf Constant
              (Dense (mkDense 4 [(-0)%float; 5%float; 0%float; (-0)%float])))).
  - intros _. exact I.
  - reflexivity.
Defined.

(** ** The CSE pass, continued *)

Lemma process_all_frame (H : StdHash) (heap : Heap) (visited : list TermPtr) :
  forall s : TermSet,
    all_hashable H heap visited ->
    pairwise_unequal heap visited ->
    (forall term, In term visited -> no_equal_term heap s term) ->
    exists s' : TermSet,
      process_all H (mkCSE heap s) visited = Ok (mkCSE heap s')
      /\ map snd s' = map snd s ++ visited.
Proof.
  induction visited as [|term rest IH]; intros s Hhash Hpair Hfresh.
  - exists s. split; [reflexivity|]. now rewrite app_nil_r.
  - inversion Hhash as [|? ? [code Hcode] Hhash']; subst.
    inversion Hpair as [|? ? Hterm Hpair']; subst.
    cbn [process_all]. unfold process, insert. cbn [terms unique_terms].
    rewrite Hcode. cbn [bind].
    rewrite (find_equal_none heap code term s) by (apply Hfresh; now left).
    cbn [bind negb].
    destruct (IH (s ++ [(code, term)]) Hhash' Hpair') as [s' [Hrun Hset]].
    + intros later Hlater c p Hin. apply in_app_or in Hin.
      destruct Hin as [Hin|[Hin|[]]].
      * apply (Hfresh later (or_intror Hlater) c p Hin).
      * injection Hin as _ <-. rewrite Forall_forall in Hterm.
        now apply Hterm.
    + exists s'. split; [exact Hrun|].
      rewrite Hset, map_app, <- app_assoc. reflexivity.
Qed.

(** A pass over terms no two of which are semantically equal, started with
    an empty set, redirects nothing: every call succeeds, the terms are left
    as they were and the set ends up holding the visited terms, in the order
    of the visit. *)
Theorem pass_over_unequal_terms_changes_nothing
  (H : StdHash) (heap : Heap) (visited : list TermPtr) :
  all_hashable H heap visited ->
  pairwise_unequal heap visited ->
  exists s' : TermSet,
    process_all H (mkCSE heap []) visited = Ok (mkCSE heap s')
    /\ map snd s' = visited.
Proof.
  intros Hhash Hpair.
  destruct (process_all_frame H heap visited [] Hhash Hpair) as [s' [Hrun Hset]].
  - intros term _ c p [].
  - exists s'. split; [exact Hrun|exact Hset].
Qed.

Lemma pass_over_unequal_terms_changes_nothing_witness :
  all_hashable sample_hash sample_heap [1; 2; 4]
  /\ pairwise_unequal sample_heap [1; 2; 4]
  /\ exists s' : TermSet,
       process_all sample_hash (mkCSE sample_heap []) [1; 2; 4]
       = Ok (mkCSE sample_heap s')
       /\ map snd s' = [1; 2; 4].
Proof.
  assert (Hhash : all_hashable sample_hash sample_heap [1; 2; 4]).
  { repeat constructor; eexists; vm_compute; reflexivity. }
  assert (Hpair : pairwise_unequal sample_heap [1; 2; 4]).
  { repeat constructor. }
  split; [exact Hhash|]. split; [exact Hpair|].
  exact (pass_over_unequal_terms_changes_nothing sample_hash sample_heap
           [1; 2; 4] Hhash Hpair).
Defined.

(** ** Serialization *)

Lemma add_all_values_spec (values : list double) :
  forall msg,
    add_all_values values msg
    = mkMsg (msg_size msg) (msg_values msg ++ values) (msg_sparse_indices msg).
Proof.
  induction values as [|v values IH]; intros [size vs idx];
    cbn [add_all_values msg_size msg_values msg_sparse_indices].
  - now rewrite app_nil_r.
  - rewrite IH. unfold add_values.
    cbn [msg_size msg_values msg_sparse_indices].
    now rewrite <- app_assoc.
Qed.

Lemma add_all_pairs_spec (entries : list (Z * double)) :
  forall msg,
    add_all_pairs entries msg
    = mkMsg (msg_size msg) (msg_values msg ++ map snd entries)
        (msg_sparse_indices msg ++ map fst entries).
Proof.
  induction entries as [|e entries IH]; intros [size vs idx];
    cbn [add_all_pairs msg_size msg_values msg_sparse_indices map].
  - now rewrite !app_nil_r.
  - rewrite IH. unfold add_values, add_sparse_indices.
    cbn [msg_size msg_values msg_sparse_indices].
    now rewrite <- !app_assoc.
Qed.

Lemma split_eq {A B : Type} (a b : list (A * B)) :
  map fst a = map fst b -> map snd a = map snd b -> a = b.
Proof.
  revert b. induction a as [|[x y] a IH]; intros [|[x' y'] b] Hf Hs;
    try discriminate Hf; [reflexivity|].
  simpl in Hf, Hs. injection Hf as -> Hf. injection Hs as -> Hs.
  f_equal. now apply IH.
Qed.

(** Serialization into a fresh message loses nothing: the message of a Sparse
    value holds its indices and its values in two parallel fields, the
    message of a Dense value holds the stored buffer and no index, and two
    constant values with the same message are the same variant with the same
    [size] and the same stored entries. *)
Theorem serialize_is_injective (a b : ConstantValue) :
  has_buffer a -> has_buffer b ->
  ConstantValue_serialize a empty_msg = ConstantValue_serialize b empty_msg ->
  a = b.
Proof.
  destruct a as [d1|s1], b as [d2|s2]; cbn [has_buffer ConstantValue_serialize];
    unfold Dense_serialize, Sparse_serialize;
    rewrite ?add_all_values_spec, ?add_all_pairs_spec;
    cbn [set_size empty_msg msg_size msg_values msg_sparse_indices app];
    intros Ha Hb Heq.
  - injection Heq as Hsize Hvalues. destruct d1, d2. simpl in *. now subst.
  - injection Heq as Hsize Hvalues Hidx.
    exfalso. apply Ha. destruct (sparse_values s2); [exact Hvalues|].
    discriminate Hidx.
  - injection Heq as Hsize Hvalues Hidx.
    exfalso. apply Hb. destruct (sparse_values s1); [now symmetry|].
    discriminate Hidx.
  - injection Heq as Hsize Hvalues Hidx.
    destruct s1, s2. simpl in *. subst. do 2 f_equal. now apply split_eq.
Qed.

Lemma serialize_is_injective_witness :
  ConstantValue_serialize (Sparse sparse_1_5) empty_msg
  = mkMsg 4 [5%float] [1]
  /\ Sparse sparse_1_5 = Sparse (mkSparse 4 [(1, 5%float)]).
Proof.
  split; [reflexivity|].
  apply (serialize_is_injective (Sparse sparse_1_5)
           (Sparse (mkSparse 4 [(1, 5%float)])) I I).
  reflexivity.
Defined.

(** ** Construction of Sparse values, continued *)

Lemma ordered_insert_head (x : Z * double) (l : list (Z * double)) :
  Forall (int_index_lt x) l -> ordered_insert x l = x :: l.
Proof.
  intros Hlt. destruct l as [|y l]; [reflexivity|].
  cbn [ordered_insert]. apply Forall_inv in Hlt.
  unfold int_index_ltb, int_index_lt in *.
  replace (to_int (fst y) <? to_int (fst x)) with false
    by (symmetry; apply Z.ltb_ge; lia).
  reflexivity.
Qed.

Lemma ordered_sort_sorted_id (l : list (Z * double)) :
  StronglySorted int_index_lt l -> ordered_sort l = l.
Proof.
  induction 1 as [|x l Hs IH Hlt]; [reflexivity|].
  cbn [ordered_sort]. rewrite IH. now apply ordered_insert_head.
Qed.

Lemma filter_all {A : Type} (f : A -> bool) (l : list A) :
  Forall (fun x => f x = true) l -> filter f l = l.
Proof.
  induction 1 as [|x l Hx Hl IH]; [reflexivity|].
  cbn [filter]. now rewrite Hx, IH.
Qed.

Lemma ordered_make_idempotent
  (size : Z) (values : list (Z * double)) (s : SparseConstantValue) :
  Forall is_uint32 values ->
  ordered_make size values = Ok s ->
  ordered_make size (sparse_values s) = Ok s
  /\ Permutation (sparse_values s) (filter SparseCV.nonzero values)
  /\ filter SparseCV.nonzero (sparse_values s) = sparse_values s.
Proof.
  intros Hu32. unfold ordered_make, SparseCV.make_with at 1. cbn [bind].
  set (kept := filter SparseCV.nonzero values).
  assert (Hperm : Permutation (ordered_sort kept) kept) by apply ordered_sort_perm.
  assert (Hnz : Forall (fun x => SparseCV.nonzero x = true) (ordered_sort kept)).
  { rewrite Forall_forall. intros e He.
    apply (Permutation_in _ Hperm) in He. now apply filter_In in He. }
  assert (Hu : Forall is_uint32 (ordered_sort kept)).
  { rewrite Forall_forall in *. intros e He. apply Hu32.
    apply (Permutation_in _ Hperm) in He. now apply filter_In in He. }
  destruct (0 <? vsize kept) eqn:Hpos.
  - pose proof (ordered_sort_sorted kept) as Hsorted.
    destruct (ordered_sort kept) as [|first rest] eqn:Hsort; [discriminate|].
    destruct (SparseCV.check_duplicates (fst first) rest) as [[]|e] eqn:Hc;
      cbn [bind]; [|discriminate].
    intros Hs. injection Hs as <-. cbn [sparse_values].
    assert (Hstrict : StronglySorted int_index_lt (first :: rest))
      by now apply check_duplicates_strict.
    split; [|split; [exact Hperm|exact (filter_all _ _ Hnz)]].
    unfold ordered_make, SparseCV.make_with. cbn [bind].
    rewrite (filter_all _ _ Hnz), (ordered_sort_sorted_id _ Hstrict).
    replace (0 <? vsize (first :: rest)) with true
      by (symmetry; apply vsize_pos_iff; discriminate).
    rewrite Hc. reflexivity.
  - intros Hs. injection Hs as <-. cbn [sparse_values].
    assert (Hnil : kept = []).
    { destruct kept as [|e k]; [reflexivity|].
      assert (Hne : e :: k <> []) by discriminate.
      apply vsize_pos_iff in Hne. congruence. }
    rewrite Hnil. repeat split. apply perm_nil.
Qed.

Lemma conversions_defined_perm (a b : list (Z * double)) :
  Permutation a b -> conversions_defined a = conversions_defined b.
Proof.
  intros Hp. unfold conversions_defined.
  now rewrite (Permutation_length Hp), (forallb_perm _ _ _ Hp).
Qed.

(** The constructor is idempotent on what it stores: the entries of a Sparse
    value it built are accepted again and give the same value.  (This is what
    rebuilding a value from its serialized entries relies on.) *)
Theorem sparse_make_idempotent
  (size : Z) (values : list (Z * double)) (s : SparseConstantValue) :
  Forall is_uint32 values ->
  SparseCV.make size values = Ok s ->
  SparseCV.make size (sparse_values s) = Ok s.
Proof.
  intros Hu32 Hmake. rewrite make_spec in Hmake.
  destruct (conversions_defined (filter SparseCV.nonzero values)) eqn:Hdef;
    [|discriminate Hmake].
  destruct (ordered_make_idempotent size values s Hu32 Hmake)
    as [Hagain [Hperm Hkept]].
  rewrite make_spec, Hkept, (conversions_defined_perm _ _ Hperm), Hdef.
  exact Hagain.
Qed.

Lemma sparse_make_idempotent_witness :
  SparseCV.make 4 [(1, 5%float); (3, 2%float)]
  = Ok (mkSparse 4 [(1, 5%float); (3, 2%float)]).
Proof.
  assert (Hu : Forall is_uint32 sample_entries).
  { repeat constructor; unfold is_uint32, uint32_modulus; simpl; lia. }
  exact (sparse_make_idempotent 4 sample_entries
           (mkSparse 4 [(1, 5%float); (3, 2%float)]) Hu eq_refl).
Defined.

Lemma filter_perm {A : Type} (f : A -> bool) (a b : list A) :
  Permutation a b -> Permutation (filter f a) (filter f b).
Proof.
  induction 1 as [|x a b Hp IH|x y a|a b c H1 IH1 H2 IH2]; cbn [filter].
  - apply perm_nil.
  - destruct (f x); [now apply perm_skip|exact IH].
  - destruct (f x), (f y); try apply Permutation_refl. apply perm_swap.
  - now apply perm_trans with (filter f b).
Qed.

(** What the constructor does with two sorted arrangements of the same
    entries is the same. *)
Lemma scan_of_sorted_perm (size : Z) (l1 l2 : list (Z * double)) :
  Permutation l1 l2 ->
  StronglySorted int_index_le l1 -> StronglySorted int_index_le l2 ->
  Forall is_uint32 l1 ->
  match l1 with
  | [] => Fail Undefined
  | first :: rest =>
      SparseCV.check_duplicates (fst first) rest ;;; Ok (mkSparse size l1)
  end
  = match l2 with
    | [] => Fail Undefined
    | first :: rest =>
        SparseCV.check_duplicates (fst first) rest ;;; Ok (mkSparse size l2)
    end.
Proof.
  intros Hp Hs1 Hs2 Hu1.
  assert (Hu2 : Forall is_uint32 l2).
  { rewrite Forall_forall in *. intros e He. apply Hu1.
    now apply (Permutation_in _ (Permutation_sym Hp)). }
  destruct l1 as [|a l1]; destruct l2 as [|b l2].
  - reflexivity.
  - apply Permutation_nil in Hp. discriminate Hp.
  - apply Permutation_sym, Permutation_nil in Hp. discriminate Hp.
  - destruct (check_duplicates_cases (fst a) l1) as [Hc1|Hc1];
      destruct (check_duplicates_cases (fst b) l2) as [Hc2|Hc2];
      rewrite Hc1, Hc2; cbn [bind].
    + do 2 f_equal. apply sorted_unique; [| |exact Hp];
        now apply check_duplicates_strict.
    + exfalso. apply (check_duplicates_fail _ _ _ Hc2).
      apply (Permutation_NoDup (Permutation_map fst Hp)).
      apply strictly_sorted_NoDup. now apply check_duplicates_strict.
    + exfalso. apply (check_duplicates_fail _ _ _ Hc1).
      apply (Permutation_NoDup (Permutation_map fst (Permutation_sym Hp))).
      apply strictly_sorted_NoDup. now apply check_duplicates_strict.
    + reflexivity.
Qed.

Lemma ordered_make_ignores_order
  (size : Z) (values values' : list (Z * double)) :
  Forall is_uint32 values ->
  Permutation values values' ->
  ordered_make size values = ordered_make size values'.
Proof.
  intros Hu32 Hp. unfold ordered_make, SparseCV.make_with. cbn [bind].
  pose proof (filter_perm SparseCV.nonzero _ _ Hp) as Hkept.
  set (kept := filter SparseCV.nonzero values) in *.
  set (kept' := filter SparseCV.nonzero values') in *.
  assert (Hlen : vsize kept = vsize kept')
    by (unfold vsize; now rewrite (Permutation_length Hkept)).
  rewrite <- Hlen.
  destruct (0 <? vsize kept) eqn:Hpos.
  - apply scan_of_sorted_perm; try apply ordered_sort_sorted.
    + eapply perm_trans; [apply ordered_sort_perm|].
      eapply perm_trans; [exact Hkept|apply Permutation_sym, ordered_sort_perm].
    + rewrite Forall_forall in *. intros e He. apply Hu32.
      apply (Permutation_in _ (ordered_sort_perm kept)) in He.
      now apply filter_In in He.
  - assert (Hnil : kept = []).
    { destruct kept as [|e k]; [reflexivity|].
      assert (Hne : e :: k <> []) by discriminate.
      apply vsize_pos_iff in Hne. congruence. }
    rewrite Hnil in *. apply Permutation_nil in Hkept. now rewrite Hkept.
Qed.

(** The constructor does not depend on the order of its input: two lists
    with the same entries have the same outcome, be it the Sparse value
    built, the exception thrown, or the undefined conversion of a value in
    the sort. *)
Theorem sparse_make_ignores_order
  (size : Z) (values values' : list (Z * double)) :
  Forall is_uint32 values ->
  Permutation values values' ->
  SparseCV.make size values = SparseCV.make size values'.
Proof.
  intros Hu32 Hp. rewrite !make_spec.
  rewrite (conversions_defined_perm _ _ (filter_perm SparseCV.nonzero _ _ Hp)).
  now rewrite (ordered_make_ignores_order size values values' Hu32 Hp).
Qed.

(** Two or more nonzero-valued entries, one of which holds a value that does
    not convert to [int] (a value outside [int], an infinity, NaN): the
    behaviour of the constructor is undefined, because the comparator of the
    sort converts every entry to a pair of [int]s. *)
Theorem sparse_make_undefined_outside_int
  (size : Z) (values : list (Z * double)) (entry : Z * double) :
  (2 <= length (filter SparseCV.nonzero values))%nat ->
  In entry values ->
  SparseCV.nonzero entry = true ->
  fits_int (snd entry) = false ->
  SparseCV.make size values = Fail Undefined.
Proof.
  intros Hlen Hin Hnz Hfit. rewrite make_spec.
  unfold conversions_defined.
  replace (length (filter SparseCV.nonzero values) <=? 1)%nat with false
    by (symmetry; apply Nat.leb_gt; lia).
  cbn [orb].
  destruct (forallb (fun e => fits_int (snd e))
              (filter SparseCV.nonzero values)) eqn:Hall; [|reflexivity].
  exfalso. rewrite forallb_forall in Hall.
  assert (Hkept : In entry (filter SparseCV.nonzero values))
    by (apply filter_In; now split).
  specialize (Hall entry Hkept). cbv beta in Hall. congruence.
Qed.

Lemma sparse_make_undefined_outside_int_witness :
  SparseCV.make 4 [(0, 1%float); (1, 4294967296%float)] = Fail Undefined.
Proof.
  apply (sparse_make_undefined_outside_int 4
           [(0, 1%float); (1, 4294967296%float)] (1, 4294967296%float)).
  - cbn. lia.
  - right. now left.
  - reflexivity.
  - reflexivity.
Defined.

Lemma sparse_make_ignores_order_witness :
  SparseCV.make 4 sample_entries
  = SparseCV.make 4 [(1, 5%float); (1, 0%float); (3, 2%float)].
Proof.
  apply (sparse_make_ignores_order 4 sample_entries
           [(1, 5%float); (1, 0%float); (3, 2%float)]).
  - repeat constructor; unfold is_uint32, uint32_modulus; simpl; lia.
  - unfold sample_entries.
    eapply perm_trans; [apply perm_swap|].
    eapply perm_trans; [apply perm_skip, perm_swap|].
    eapply perm_trans; [apply perm_swap|]. apply Permutation_refl.
Defined.

(** ** Dense values built by the constructor *)

Lemma constructed_dense_inv (d : DenseConstantValue) :
  constructed_dense d ->
  0 < vsize (dense_values d)
  /\ dense_size d mod vsize (dense_values d) = 0.
Proof.
  unfold constructed_dense, DenseCV.make, size_t_rem. intros Hmake.
  destruct (Z.eqb_spec (vsize (dense_values d)) 0) as [Hz|Hnz];
    [discriminate Hmake|].
  cbn [bind] in Hmake.
  destruct (Z.eqb_spec (dense_size d mod vsize (dense_values d)) 0)
    as [Hdiv|Hndiv]; [|discriminate Hmake].
  split; [unfold vsize in *; lia|exact Hdiv].
Qed.



Lemma dense_hash_loop_in_bounds (H : StdHash) (values : list double) (n : nat) :
  forall i hash zero_count : Z,
    0 <= i -> i + Z.of_nat n <= vsize values ->
    exists r, DenseCV.hash_loop H values n i hash zero_count = Ok r.
Proof.
  induction n as [|n IH]; intros i hash zero_count Hi Hn.
  - eexists. reflexivity.
  - cbn [DenseCV.hash_loop]. unfold vector_index.
    replace (0 <=? i) with true by (symmetry; apply Z.leb_le; lia).
    replace (i <? vsize values) with true by (symmetry; apply Z.ltb_lt; lia).
    cbn [andb].
    destruct (nth_error values (Z.to_nat i)) as [v|] eqn:Hv.
    + cbn [bind]. destruct (double_eq v 0%float); apply IH; lia.
    + exfalso. apply nth_error_None in Hv. unfold vsize in *. lia.
Qed.

(** A Dense value that the constructor accepted can be hashed exactly when
    its buffer holds [size] entries: [hash()] returns for a full buffer and
    reads past the end of every shorter one. *)
Theorem dense_hash_defined_iff (H : StdHash) (d : DenseConstantValue) :
  constructed_dense d ->
  0 < dense_size d ->
  ((exists h : Z, DenseCV.hash H d = Ok h)
   <-> vsize (dense_values d) = dense_size d).
Proof.
  intros Hmake Hsize. destruct (constructed_dense_inv d Hmake) as [Hlen Hdiv].
  apply Z.mod_divide in Hdiv; [|lia]. destruct Hdiv as [m Hm].
  assert (Hm1 : 1 <= m).
  { destruct (Z_le_gt_dec m 0) as [Hneg|Hpos]; [|lia].
    exfalso. assert (m * vsize (dense_values d) <= 0) by nia. lia. }
  assert (Hle : vsize (dense_values d) <= dense_size d) by nia.
  unfold DenseCV.hash. split.
  - intros [h Hh].
    destruct (Z.eq_dec (vsize (dense_values d)) (dense_size d)) as [E|E];
      [exact E|].
    rewrite dense_hash_loop_overruns in Hh; [discriminate Hh|lia|lia].
  - intros Hfull.
    destruct (dense_hash_loop_in_bounds H (dense_values d)
                (Z.to_nat (dense_size d)) 0 0 0) as [[hash zc] Hr]; [lia|lia|].
    rewrite Hr. cbn [bind]. destruct (0 <? zc); eexists; reflexivity.
Qed.

Lemma dense_hash_defined_iff_witness :
  exists h : Z, DenseCV.hash sample_hash dense_1212 = Ok h.
Proof.
  apply (proj2 (dense_hash_defined_iff sample_hash dense_1212
                  eq_refl eq_refl)).
  reflexivity.
Defined.

(** ** Equality inside one representation *)

Lemma double_eq_trans (u v w : double) :
  double_eq u v = true -> double_eq v w = true -> double_eq u w = true.
Proof.
  intros Huv Hvw.
  destruct (double_eq_cases u v Huv) as [[Hu Hv]|E]; [|now rewrite E].
  destruct (double_eq_cases v w Hvw) as [[_ Hw]|E]; [|now rewrite <- E].
  unfold double_eq in *. rewrite eqb_spec in *. rewrite Prim2SF_zero in *.
  destruct (SFeqb_true_cases _ _ Hu) as [[s1 [_ [Hu1 _]]]|Hu1];
    destruct (SFeqb_true_cases _ _ Hw) as [[s2 [_ [Hw1 _]]]|Hw1];
    rewrite Hu1, Hw1; reflexivity.
Qed.

Lemma vector_eq_trans (a b c : list double) :
  vector_eq a b = true -> vector_eq b c = true -> vector_eq a c = true.
Proof.
  revert b c. induction a as [|x a IH]; intros [|y b] [|z c] Hab Hbc;
    simpl in *; try discriminate; [reflexivity|].
  apply andb_prop in Hab. apply andb_prop in Hbc.
  destruct Hab as [Hxy Hab], Hbc as [Hyz Hbc].
  apply andb_true_intro. split.
  - now apply (double_eq_trans x y z).
  - now apply (IH b c).
Qed.

Lemma entries_eq_trans (a b c : list (Z * double)) :
  length a = length b -> length b = length c ->
  SparseCV.entries_eq a b = true -> SparseCV.entries_eq b c = true ->
  SparseCV.entries_eq a c = true.
Proof.
  revert b c. induction a as [|x a IH]; intros [|y b] [|z c] Hl1 Hl2 Hab Hbc;
    simpl in Hl1, Hl2; try discriminate; [reflexivity|].
  cbn [SparseCV.entries_eq] in *.
  destruct (SparseCV.pair_ne x y) eqn:Hxy; [discriminate Hab|].
  destruct (SparseCV.pair_ne y z) eqn:Hyz; [discriminate Hbc|].
  unfold SparseCV.pair_ne in *.
  apply negb_false_iff, andb_prop in Hxy.
  apply negb_false_iff, andb_prop in Hyz.
  destruct Hxy as [Hf1 Hs1], Hyz as [Hf2 Hs2].
  apply Z.eqb_eq in Hf1. apply Z.eqb_eq in Hf2.
  rewrite Hf1, Hf2, Z.eqb_refl, (double_eq_trans _ _ _ Hs1 Hs2).
  cbn [andb negb]. apply (IH b c); congruence.
Qed.

(** Between constant values of one variant the equality is transitive (and
    symmetric): three Dense values, or three Sparse values, of which the
    first equals the second and the second the third, have the first equal
    to the third. *)
Theorem equality_transitive_inside_a_variant :
  (forall d1 d2 d3 : DenseConstantValue,
      DenseCV.eq_dense d1 d2 = true -> DenseCV.eq_dense d2 d3 = true ->
      DenseCV.eq_dense d1 d3 = true)
  /\ (forall s1 s2 s3 : SparseConstantValue,
         SparseCV.eq_sparse s1 s2 = true -> SparseCV.eq_sparse s2 s3 = true ->
         SparseCV.eq_sparse s1 s3 = true).
Proof.
  split.
  - intros d1 d2 d3. unfold DenseCV.eq_dense. intros H12 H23.
    apply andb_prop in H12. apply andb_prop in H23.
    destruct H12 as [Hs12 Hv12], H23 as [Hs23 Hv23].
    apply Z.eqb_eq in Hs12. apply Z.eqb_eq in Hs23.
    apply andb_true_intro. split; [apply Z.eqb_eq; congruence|].
    now apply (vector_eq_trans _ (dense_values d2)).
  - intros s1 s2 s3. unfold SparseCV.eq_sparse.
    destruct (Z.eqb_spec (sparse_size s1) (sparse_size s2)) as [Hs12|];
      cbn [negb orb]; [|discriminate].
    destruct (Z.eqb_spec (vsize (sparse_values s1)) (vsize (sparse_values s2)))
      as [Hl12|]; cbn [negb]; [|discriminate].
    destruct (Z.eqb_spec (sparse_size s2) (sparse_size s3)) as [Hs23|];
      cbn [negb orb]; [|discriminate].
    destruct (Z.eqb_spec (vsize (sparse_values s2)) (vsize (sparse_values s3)))
      as [Hl23|]; cbn [negb]; [|discriminate].
    intros H12 H23.
    replace (sparse_size s1 =? sparse_size s3) with true
      by (symmetry; apply Z.eqb_eq; congruence).
    replace (vsize (sparse_values s1) =? vsize (sparse_values s3)) with true
      by (symmetry; apply Z.eqb_eq; congruence).
    cbn [negb orb]. unfold vsize in *.
    apply (entries_eq_trans _ (sparse_values s2)); try assumption; lia.
Qed.

Lemma equality_transitive_inside_a_variant_witness :
  DenseCV.eq_dense (mkDense 2 [0%float; 5%float])
    (mkDense 2 [0%float; 5%float]) = true.
Proof.
  apply (proj1 equality_transitive_inside_a_variant
           (mkDense 2 [0%float; 5%float]) (mkDense 2 [(-0)%float; 5%float])
           (mkDense 2 [0%float; 5%float]));
    reflexivity.
Defined.
